(** * Connectivity grouping of H3 cells and the square-grid comparison index

  A shallow embedding of two pieces of the h3_study scripts:

  - the breadth-first grouping of a set of cells into connected groups
    (src/advanced/h3_advanced.py, [step_8_grid_analysis], the loop
    [while unvisited: ...]);
  - the square-grid index and its Manhattan neighbourhood
    (src/performance/hexagon_vs_square_performance.py,
    [square_grid_index] and [square_grid_neighbors]).
*)

From stdpp Require Import base tactics decidable option list list_numbers relations strings gmap.
From Stdlib Require Import ZArith Lia Floats Ascii DecimalString DecimalZ DecimalPos.

(** ** Breadth-first grouping *)

Module Grouping.
Section grouping.
(** Cells are opaque identifiers compared by equality (H3 index strings in
    the scripts). *)
Context {Cell : Type} `{EqDecision Cell}.

(** The one-step adjacency oracle, [h3.k_ring(current_hex, 1)]. It is an
    arbitrary function: the result may contain the cell itself, cells
    outside the analysed set, and repetitions; the order of the list is the
    order in which the [for neighbor in neighbors] loop runs. *)
Variable k_ring : Cell → list Cell.

(** A Python [set] is kept as the duplicate-free list of its elements in
    iteration order. [set(all_hexes)] builds one from any iterable,
    [s.add(x)] leaves a set that has [x] unchanged, [s.remove(x)] keeps the
    order of the remaining elements. *)
Definition set_of (all_hexes : list Cell) : list Cell := remove_dups all_hexes.

Definition set_add (x : Cell) (s : list Cell) : list Cell :=
  if decide (x ∈ s) then s else s ++ [x].

Definition set_remove (x : Cell) (s : list Cell) : list Cell :=
  filter (λ y, y ≠ x) s.

(** The variables of the inner loop [while queue: ...]. *)
Record bfs_state := BfsState {
  queue : list Cell;
  group : list Cell;
  unvisited : list Cell
}.

(** One iteration of [while queue:]. [None] means that the queue is empty
    and the loop is left.
<<
    current_hex = queue.pop(0)
    if current_hex in unvisited:
        group.add(current_hex)
        unvisited.remove(current_hex)
        neighbors = h3.k_ring(current_hex, 1)
        for neighbor in neighbors:
            if neighbor in unvisited:
                queue.append(neighbor)
>> *)
Definition bfs_step (s : bfs_state) : option bfs_state :=
  match queue s with
  | [] => None
  | current_hex :: rest =>
      if decide (current_hex ∈ unvisited s) then
        let unvisited' := set_remove current_hex (unvisited s) in
        Some (BfsState
                (rest ++ filter (λ neighbor, neighbor ∈ unvisited') (k_ring current_hex))
                (set_add current_hex (group s))
                unvisited')
      else Some (BfsState rest (group s) (unvisited s))
  end.

(** The inner loop, with a bound on the number of iterations: [None] is
    "not finished within [fuel] iterations". *)
Fixpoint bfs_loop (fuel : nat) (s : bfs_state) : option bfs_state :=
  match bfs_step s with
  | None => Some s
  | Some s' =>
      match fuel with
      | O => None
      | S fuel' => bfs_loop fuel' s'
      end
  end.

(** The outer loop [while unvisited: ...]; [next(iter(unvisited))] is the
    first element in iteration order.
<<
    start_hex = next(iter(unvisited))
    group = set()
    queue = [start_hex]
    while queue: ...
    if group:
        connected_groups.append(group)
>> *)
Fixpoint group_loop (fuel : nat) (connected_groups : list (list Cell))
    (unvisited : list Cell) : option (list (list Cell)) :=
  match unvisited with
  | [] => Some connected_groups
  | start_hex :: _ =>
      match fuel with
      | O => None
      | S fuel' =>
          match bfs_loop fuel (BfsState [start_hex] [] unvisited) with
          | None => None
          | Some (BfsState _ group unvisited') =>
              group_loop fuel'
                (match group with
                 | [] => connected_groups
                 | _ :: _ => connected_groups ++ [group]
                 end)
                unvisited'
          end
      end
  end.

(** [connected_groups = []; unvisited = set(all_hexes); while unvisited: ...] *)
Definition connected_groups (fuel : nat) (all_hexes : list Cell)
    : option (list (list Cell)) :=
  group_loop fuel [] (set_of all_hexes).

(** A number of iterations that is always enough: every cell is dequeued and
    expanded at most once, and expanding [c] enqueues at most
    [length (k_ring c)] cells. *)
Definition weight (cells : list Cell) : nat :=
  sum_list_with (λ c, S (length (k_ring c))) cells.

Definition enough_fuel (all_hexes : list Cell) : nat :=
  S (weight (set_of all_hexes)).

(** Groups at different positions of the result share no cell. *)
Definition disjoint_groups (gs : list (list Cell)) : Prop :=
  ∀ (i j : nat) (g h : list Cell),
    gs !! i = Some g → gs !! j = Some h → i ≠ j → ∀ c, c ∈ g → c ∉ h.

(** How often a cell occurs in a list. *)
Definition occurrences (c : Cell) (l : list Cell) : nat :=
  length (filter (λ x, x = c) l).

(** One link of a chain inside the input set [cells]: the next cell is in
    the oracle's answer for the previous one, and is an input cell. A chain
    [a = c0, c1, ..., cn = b] is [rtc (link cells) a b]. *)
Definition link (cells : list Cell) (a b : Cell) : Prop :=
  b ∈ k_ring a ∧ b ∈ cells.

(** The oracle is symmetric on the input set, as [h3.k_ring] is. *)
Definition symmetric_on (cells : list Cell) : Prop :=
  ∀ a b, a ∈ cells → b ∈ cells → b ∈ k_ring a → a ∈ k_ring b.

Definition same_group (gs : list (list Cell)) (a b : Cell) : Prop :=
  ∃ g, g ∈ gs ∧ a ∈ g ∧ b ∈ g.

(** Two results are the same set of sets. *)
Definition same_groups (gs gs' : list (list Cell)) : Prop :=
  (∀ g, g ∈ gs → ∃ g', g' ∈ gs' ∧ ∀ c, c ∈ g ↔ c ∈ g') ∧
  (∀ g', g' ∈ gs' → ∃ g, g ∈ gs ∧ ∀ c, c ∈ g ↔ c ∈ g').

(** The measure that decreases at every iteration of the inner loop. *)
Definition measure (s : bfs_state) : nat :=
  length (queue s) + weight (unvisited s).

End grouping.

Global Arguments bfs_state Cell : clear implicits.

End Grouping.

(** ** Small oracles over numbered cells *)

Module Scenarios.

(** Cells 1, 2, 3 in a row and cells 4, 5 side by side; each answer holds
    the cell itself, as a k-ring does. *)
Definition row_oracle (c : nat) : list nat :=
  match c with
  | 1 => [1; 2]
  | 2 => [2; 1; 3]
  | 3 => [3; 2]
  | 4 => [4; 5]
  | 5 => [5; 4]
  | _ => []
  end.

(** Three cells that are pairwise adjacent. *)
Definition triangle_oracle (c : nat) : list nat :=
  match c with
  | 1 => [1; 2; 3]
  | 2 => [2; 1; 3]
  | 3 => [3; 1; 2]
  | _ => []
  end.

(** An oracle that is not symmetric: cell 1 names 2 and 3, nobody names 1. *)
Definition one_way_oracle (c : nat) : list nat :=
  match c with
  | 1 => [2; 3]
  | _ => []
  end.

End Scenarios.

(** ** The square grid *)

Module SquareGrid.
Local Open Scope Z_scope.
Local Set Warnings "-inexact-float".

(** [str(n)] for a Python [int]: decimal digits, ["-"] in front of a
    negative number. *)
Definition str (n : Z) : string := NilZero.string_of_int (Z.to_int n).

(** [range(start, stop)]. *)
Definition range (start stop : Z) : list Z := seqZ start (stop - start).

(** [f"{grid_x}_{grid_y}"], the name of a cell wherever the scripts key
    points by square cell. *)
Definition cell_name (grid_x grid_y : Z) : string :=
  str grid_x +:+ "_" +:+ str grid_y.

(**
<<
    neighbors = []
    for dx in range(-k, k+1):
        for dy in range(-k, k+1):
            if abs(dx) + abs(dy) <= k:
                neighbors.append(f"{grid_x + dx}_{grid_y + dy}")
    return neighbors
>> *)
Definition square_grid_neighbors (grid_x grid_y k : Z) : list string :=
  dx ← range (- k) (k + 1);
  dy ← range (- k) (k + 1);
  if decide (Z.abs dx + Z.abs dy ≤ k)
  then [cell_name (grid_x + dx) (grid_y + dy)]
  else [].

(** Python floats are IEEE 754 binary64 numbers, as Rocq's primitive
    floats are. A function that can raise returns [None] when it does. *)

(** The exact value of a finite non-zero float is [a * 2 ^ e] for its signed
    mantissa [a] and its exponent [e]. [int(x)] rounds that value towards
    zero; it raises [OverflowError] on an infinity and [ValueError] on a
    NaN. *)
Definition int (x : float) : option Z :=
  match Prim2SF x with
  | S754_zero _ => Some 0
  | S754_finite s m e =>
      let a := cond_Zopp s (Zpos m) in
      Some (if decide (0 ≤ e) then a * 2 ^ e else a ÷ 2 ^ (- e))
  | S754_infinity _ | S754_nan => None
  end.

(** [2 ** resolution] as the float that [0.1] is divided by. For
    [0 <= resolution] it is a Python [int], converted to a float by the
    division, which raises [OverflowError] from [2 ** 1024] on. For
    [resolution < 0] it is a float already, and it is [0.0] below
    [2 ** -1074], so that the division raises [ZeroDivisionError]. *)
Definition two_to_the (resolution : Z) : option float :=
  if decide (-1074 ≤ resolution ≤ 1023)
  then Some (Z.ldexp 1 resolution)
  else None.

(** [grid_size = 0.1 / (2 ** resolution)] *)
Definition grid_size_of (resolution : Z) : option float :=
  d ← two_to_the resolution; Some (0.1 / d)%float.

(**
<<
    grid_size = 0.1 / (2 ** resolution)
    grid_x = int(lng / grid_size)
    grid_y = int(lat / grid_size)
    return f"{grid_x}_{grid_y}_{resolution}"
>> *)
Definition square_grid_index (lat lng : float) (resolution : Z) : option string :=
  grid_size ← grid_size_of resolution;
  grid_x ← int (lng / grid_size)%float;
  grid_y ← int (lat / grid_size)%float;
  Some (str grid_x +:+ "_" +:+ str grid_y +:+ "_" +:+ str resolution).

(** The grid coordinates of a point, as the neighbour benchmark computes
    them for its centre:
<<
    grid_size = 0.1 / (2 ** resolution)
    center_grid_x = int(center_lng / grid_size)
    center_grid_y = int(center_lat / grid_size)
>> *)
Definition grid_coordinates (lat lng : float) (resolution : Z) : option (Z * Z) :=
  grid_size ← grid_size_of resolution;
  grid_x ← int (lng / grid_size)%float;
  grid_y ← int (lat / grid_size)%float;
  Some (grid_x, grid_y).

(** [math.floor(x)], the rounding that the specification names where the
    code has [int]: the value rounded down. *)
Definition floor (x : float) : option Z :=
  match Prim2SF x with
  | S754_zero _ => Some 0
  | S754_finite s m e =>
      let a := cond_Zopp s (Zpos m) in
      Some (if decide (0 ≤ e) then a * 2 ^ e else a / 2 ^ (- e))
  | S754_infinity _ | S754_nan => None
  end.

(** [math.ceil(x)], the value rounded up. *)
Definition ceil (x : float) : option Z :=
  Z.opp <$> floor (- x)%float.

(** The index as the specification words it: some identifier, one per pair
    of coordinates at a resolution, of the pair of floors. *)
Definition encodes_floor_pair (encode : Z → Z → Z → string) : Prop :=
  (∀ r x y x' y', encode x y r = encode x' y' r → x = x' ∧ y = y') ∧
  (∀ lat lng r grid_size fx fy,
     grid_size_of r = Some grid_size →
     floor (lng / grid_size)%float = Some fx →
     floor (lat / grid_size)%float = Some fy →
     square_grid_index lat lng r = Some (encode fx fy r)).

(** A float, as the specification of the float operations describes it, is
    small when its magnitude is below one. *)
Definition small (x : spec_float) : Prop :=
  match x with
  | S754_zero _ => True
  | S754_finite _ m e => e < 0 ∧ Z.pos m < 2 ^ (- e)
  | S754_infinity _ | S754_nan => False
  end.







(** How often a character occurs in a string. *)
Fixpoint count_char (c : Ascii.ascii) (s : string) : nat :=
  match s with
  | EmptyString => 0%nat
  | String a s' => ((if Ascii.eqb a c then 1 else 0) + count_char c s')%nat
  end.

End SquareGrid.

(** ** Dictionaries of square cells: aggregation and range query *)

Module SquareBuckets.
Import SquareGrid.
Local Open Scope Z_scope.

(** The key of a point in the dictionaries of square cells:
<<
    grid_x = int(lng / grid_size)
    grid_y = int(lat / grid_size)
    square_index = f"{grid_x}_{grid_y}"
>> *)
Definition square_cell (grid_size lat lng : float) : option string :=
  grid_x ← int (lng / grid_size)%float;
  grid_y ← int (lat / grid_size)%float;
  Some (cell_name grid_x grid_y).

(** [d[key].append(v)] on a [defaultdict(list)]. *)
Definition append_at {V} (key : string) (v : V) (d : gmap string (list V))
    : gmap string (list V) :=
  <[key := default [] (d !! key) ++ [v]]> d.

(** The aggregation benchmark groups the values by square cell:
<<
    square_data = defaultdict(list)
    for lat, lng, value in zip(lats, lngs, values):
        ...
        square_data[square_index].append(value)
>> *)
Fixpoint square_data_loop (grid_size : float) (rows : list (float * float * float))
    (square_data : gmap string (list float)) : option (gmap string (list float)) :=
  match rows with
  | [] => Some square_data
  | (lat, lng, value) :: rows' =>
      square_index ← square_cell grid_size lat lng;
      square_data_loop grid_size rows' (append_at square_index value square_data)
  end.

Definition square_data (grid_size : float) (rows : list (float * float * float))
    : option (gmap string (list float)) :=
  square_data_loop grid_size rows ∅.

(** The values of the rows that fall into the cell [key], in input order. *)
Definition values_at (grid_size : float) (key : string)
    (rows : list (float * float * float)) : list float :=
  omap (λ '(lat, lng, value),
          if decide (square_cell grid_size lat lng = Some key)
          then Some value else None) rows.

(** [sum(len(values_list) for values_list in d.values())], the sum of the
    [count] fields of the aggregation. *)
Definition total_count {V} (d : gmap string (list V)) : nat :=
  sum_list_with (λ kv, length kv.2) (map_to_list d).

(** The range-query benchmark groups the numbered points by square cell:
<<
    square_points = defaultdict(list)
    for i, (lat, lng) in enumerate(zip(lats, lngs)):
        ...
        square_points[square_index].append((lat, lng, i))
>> *)
Fixpoint square_points_loop (grid_size : float) (i : nat) (points : list (float * float))
    (square_points : gmap string (list (float * float * nat)))
    : option (gmap string (list (float * float * nat))) :=
  match points with
  | [] => Some square_points
  | (lat, lng) :: points' =>
      square_index ← square_cell grid_size lat lng;
      square_points_loop grid_size (S i) points'
        (append_at square_index (lat, lng, i) square_points)
  end.

Definition square_points (grid_size : float) (points : list (float * float))
    : option (gmap string (list (float * float * nat))) :=
  square_points_loop grid_size 0 points ∅.

(** [enumerate(points)] counted from [i], as the triples the loop stores. *)
Fixpoint numbered (i : nat) (points : list (float * float))
    : list (float * float * nat) :=
  match points with
  | [] => []
  | (lat, lng) :: points' => (lat, lng, i) :: numbered (S i) points'
  end.

(** The numbered points that fall into the cell [key], in input order. *)
Definition points_at (grid_size : float) (key : string) (i : nat)
    (points : list (float * float)) : list (float * float * nat) :=
  filter (λ p, square_cell grid_size p.1.1 p.1.2 = Some key) (numbered i points).

(** A query area, [{'lat_min': .., 'lat_max': .., 'lng_min': .., 'lng_max': ..}]. *)
Record area := Area {
  lat_min : float;
  lat_max : float;
  lng_min : float;
  lng_max : float
}.

(** [area['lat_min'] <= lat <= area['lat_max'] and
     area['lng_min'] <= lng <= area['lng_max']] *)
Definition in_area (a : area) (lat lng : float) : bool :=
  (lat_min a <=? lat)%float && (lat <=? lat_max a)%float &&
  (lng_min a <=? lng)%float && (lng <=? lng_max a)%float.

(**
<<
    square_result = []
    grid_x_min = int(area['lng_min'] / grid_size)
    grid_x_max = int(area['lng_max'] / grid_size)
    grid_y_min = int(area['lat_min'] / grid_size)
    grid_y_max = int(area['lat_max'] / grid_size)
    for grid_x in range(grid_x_min, grid_x_max + 1):
        for grid_y in range(grid_y_min, grid_y_max + 1):
            square_index = f"{grid_x}_{grid_y}"
            if square_index in square_points:
                for lat, lng, point_id in square_points[square_index]:
                    if (area['lat_min'] <= lat <= area['lat_max'] and
                        area['lng_min'] <= lng <= area['lng_max']):
                        square_result.append(point_id)
>> *)
Definition square_range_query (grid_size : float)
    (square_points : gmap string (list (float * float * nat))) (a : area)
    : option (list nat) :=
  grid_x_min ← int (lng_min a / grid_size)%float;
  grid_x_max ← int (lng_max a / grid_size)%float;
  grid_y_min ← int (lat_min a / grid_size)%float;
  grid_y_max ← int (lat_max a / grid_size)%float;
  Some (grid_x ← range grid_x_min (grid_x_max + 1);
        grid_y ← range grid_y_min (grid_y_max + 1);
        match square_points !! cell_name grid_x grid_y with
        | Some bucket =>
            '(lat, lng, point_id) ← bucket;
            if in_area a lat lng then [point_id] else []
        | None => []
        end).

End SquareBuckets.

(** ** Generated database records *)

Module Records.
Import SquareGrid.
Local Open Scope Z_scope.
Local Set Warnings "-inexact-float".

(** The square grid columns of a generated database record:
<<
    grid_size = 0.001
    grid_x = int(lng / grid_size)
    grid_y = int(lat / grid_size)
>> *)
Definition record_grid (lat lng : float) : option (Z * Z) :=
  grid_x ← int (lng / 0.001)%float;
  grid_y ← int (lat / 0.001)%float;
  Some (grid_x, grid_y).

End Records.

(** ** Nearest-candidate searches of the practical examples *)

Module Nearest.
Local Open Scope Z_scope.

Section nearest.
(** Cells, and the grid distance [h3.h3_distance] between two of them, a
    Python [int]. *)
Context {Cell : Type}.
Variable h3_distance : Cell → Cell → Z.

(** A running minimum starts as [float('inf')] and is an [int] from the first
    candidate on. *)
Inductive distance :=
| Infinity
| Steps (n : Z).

(** [distance < min_distance] *)
Definition closer (d : Z) (min_distance : distance) : bool :=
  match min_distance with
  | Infinity => true
  | Steps m => bool_decide (d < m)
  end.

(** The search that the examples run over drivers, stations and bus stops;
    [pick] is what is kept of the best candidate (the row itself, or its
    name).
<<
    best = None
    min_distance = float('inf')
    for _, candidate in candidates.iterrows():
        distance = h3.h3_distance(here, candidate['h3'])
        if distance < min_distance:
            min_distance = distance
            best = pick(candidate)
>> *)
Fixpoint nearest_loop {A B} (h3_of : A → Cell) (pick : A → B) (here : Cell)
    (candidates : list A) (best : option B) (min_distance : distance)
    : option B * distance :=
  match candidates with
  | [] => (best, min_distance)
  | candidate :: candidates' =>
      let d := h3_distance here (h3_of candidate) in
      if closer d min_distance
      then nearest_loop h3_of pick here candidates' (Some (pick candidate)) (Steps d)
      else nearest_loop h3_of pick here candidates' best min_distance
  end.

Definition nearest {A B} (h3_of : A → Cell) (pick : A → B) (here : Cell)
    (candidates : list A) : option B * distance :=
  nearest_loop h3_of pick here candidates None Infinity.

(** The rows of the delivery example, with the columns that the matching
    reads. *)
Record driver := Driver {
  driver_id : string;
  driver_h3 : Cell;
  status : string
}.

Record order := Order {
  order_id : string;
  order_h3 : Cell
}.

Record matching := Matching {
  match_order_id : string;
  match_driver_id : string;
  match_h3_distance : distance
}.

(** [df_drivers[df_drivers['status'] == 'available']] *)
Definition available_drivers (drivers : list driver) : list driver :=
  filter (λ d, status d = "available") drivers.

(**
<<
    matches = []
    for _, order in df_orders.iterrows():
        best_driver = None
        min_distance = float('inf')
        for _, driver in available_drivers.iterrows(): ...
        if best_driver is not None:
            matches.append({'order_id': order['order_id'],
                            'driver_id': best_driver['driver_id'],
                            'h3_distance': min_distance})
>> *)
Definition match_orders (drivers : list driver) (orders : list order) : list matching :=
  o ← orders;
  match nearest driver_h3 id (order_h3 o) (available_drivers drivers) with
  | (Some best_driver, min_distance) =>
      [Matching (order_id o) (driver_id best_driver) min_distance]
  | (None, _) => []
  end.

(** The rows of the transport example. *)
Record station := Station {
  station_name : string;
  station_h3 : Cell
}.

Record bus_stop := BusStop {
  stop_name : string;
  stop_h3 : Cell
}.

Record accessibility := Accessibility {
  subway_distance : distance;
  nearest_station : option string;
  bus_distance : distance;
  nearest_bus_stop : option string;
  accessibility_score : Z
}.

(** [10 - min(min_subway_distance + min_bus_distance, 10)]; a sum with
    [float('inf')] is [float('inf')], and [min(float('inf'), 10)] is [10]. *)
Definition score (min_subway_distance min_bus_distance : distance) : Z :=
  10 - match min_subway_distance, min_bus_distance with
       | Steps s, Steps b => Z.min (s + b) 10
       | _, _ => 10
       end.

(** One row of [accessibility_analysis], for the sample in the cell [here]. *)
Definition accessibility_of (stations : list station) (bus_stops : list bus_stop)
    (here : Cell) : accessibility :=
  let '(nearest_station, min_subway_distance) :=
    nearest station_h3 station_name here stations in
  let '(nearest_bus_stop, min_bus_distance) :=
    nearest stop_h3 stop_name here bus_stops in
  Accessibility min_subway_distance nearest_station min_bus_distance nearest_bus_stop
    (score min_subway_distance min_bus_distance).

End nearest.
End Nearest.

(** ** The index cache of the optimisation step *)

Module GeoCache.
Local Open Scope Z_scope.

Section geo_cache.
(** [h3.geo_to_h3], and Python's [round(x, ndigits)] on floats. *)
Context {Cell : Type}.
Variable geo_to_h3 : float → float → Z → Cell.
Variable round : float → Z → float.

(** A key [(round(lat, precision), round(lng, precision), resolution)]. Two
    keys are the same dictionary key when their components are equal, floats
    by the IEEE comparison. *)
Definition key : Type := float * float * Z.

Definition key_eqb (a b : key) : bool :=
  PrimFloat.eqb a.1.1 b.1.1 && PrimFloat.eqb a.1.2 b.1.2 && (a.2 =? b.2).

(** The dictionary [cache], in insertion order. *)
Definition cache : Type := list (key * Cell).

Fixpoint cache_get (k : key) (c : cache) : option Cell :=
  match c with
  | [] => None
  | (k', v) :: c' => if key_eqb k' k then Some v else cache_get k c'
  end.

Record call := Call {
  lat : float;
  lng : float;
  resolution : Z;
  precision : Z
}.

Definition key_of (x : call) : key :=
  (round (lat x) (precision x), round (lng x) (precision x), resolution x).

(**
<<
    def cached_geo_to_h3(lat, lng, resolution, precision=4):
        key = (round(lat, precision), round(lng, precision), resolution)
        if key not in cache:
            cache[key] = h3.geo_to_h3(lat, lng, resolution)
        return cache[key]
>> *)
Definition cached_geo_to_h3 (x : call) (c : cache) : Cell * cache :=
  let k := key_of x in
  match cache_get k c with
  | None =>
      let v := geo_to_h3 (lat x) (lng x) (resolution x) in
      (v, c ++ [(k, v)])
  | Some v => (v, c)
  end.

(** A sequence of calls on the shared cache, with their results. *)
Fixpoint cached_calls (calls : list call) (c : cache) : list Cell * cache :=
  match calls with
  | [] => ([], c)
  | x :: calls' =>
      let '(v, c') := cached_geo_to_h3 x c in
      let '(vs, c'') := cached_calls calls' c' in
      (v :: vs, c'')
  end.

(** The call whose index a call gets: the first earlier call with the same
    key, or the call itself. *)
Definition first_seen (earlier : list call) (x : call) : call :=
  default x (find (λ y, key_eqb (key_of y) (key_of x)) earlier).

End geo_cache.
End GeoCache.

(** ** The sampled cells of the polygon analysis *)

Module Sampling.

Section sampling.
(** [h3.geo_to_h3], [h3.h3_to_geo] and [np.arange(start, stop, step)]. *)
Context {Cell : Type}.
Variable geo_to_h3 : float → float → Z → Cell.
Variable h3_to_geo : Cell → float * float.
Variable arange : float → float → float → list float.

(** The bounding box of the boundary: the least and the greatest latitude
    and longitude of its corners. *)
Record box := Box {
  lat_min : float;
  lat_max : float;
  lng_min : float;
  lng_max : float
}.

(** [lat_min <= center_lat <= lat_max and lng_min <= center_lng <= lng_max] *)
Definition center_inside (b : box) (hex_id : Cell) : bool :=
  let '(center_lat, center_lng) := h3_to_geo hex_id in
  PrimFloat.leb (lat_min b) center_lat && PrimFloat.leb center_lat (lat_max b) &&
  PrimFloat.leb (lng_min b) center_lng && PrimFloat.leb center_lng (lng_max b).

(** The cells added to [all_hexes], in the order of the two loops.
<<
    for lat in lat_range:
        for lng in lng_range:
            hex_id = h3.geo_to_h3(lat, lng, resolution)
            center_lat, center_lng = h3.h3_to_geo(hex_id)
            if (lat_min <= center_lat <= lat_max and
                    lng_min <= center_lng <= lng_max):
                all_hexes.add(hex_id)
>> *)
Definition sampled_hexes (b : box) (step : float) (resolution : Z) : list Cell :=
  let lat_range := arange (lat_min b) (lat_max b) step in
  let lng_range := arange (lng_min b) (lng_max b) step in
  lat ← lat_range;
  lng ← lng_range;
  let hex_id := geo_to_h3 lat lng resolution in
  if center_inside b hex_id then [hex_id] else [].

End sampling.
End Sampling.

Import Grouping.

(** ** Facts about the breadth-first grouping *)

Section grouping_facts.
Context {Cell : Type} `{EqDecision Cell}.
Variable k_ring : Cell → list Cell.

Implicit Types (s : bfs_state Cell) (U g q : list Cell) (gs : list (list Cell)).

(** One iteration of the inner loop, as a relation. *)
Definition step (s s' : bfs_state Cell) : Prop := bfs_step k_ring s = Some s'.

(** *** Python sets as duplicate-free lists *)

Lemma elem_of_set_remove (x y : Cell) (l : list Cell) :
  y ∈ set_remove x l ↔ y ∈ l ∧ y ≠ x.
Proof. unfold set_remove. rewrite list_elem_of_filter. tauto. Qed.

Lemma NoDup_set_remove (x : Cell) (l : list Cell) :
  NoDup l → NoDup (set_remove x l).
Proof. apply NoDup_filter. Qed.

Lemma set_remove_perm (x : Cell) (l : list Cell) :
  NoDup l → x ∈ l → l ≡ₚ x :: set_remove x l.
Proof.
  intros Hl Hx. apply NoDup_Permutation; [done| |].
  - apply NoDup_cons. split; [|by apply NoDup_set_remove].
    rewrite elem_of_set_remove. tauto.
  - intros y. rewrite elem_of_cons, elem_of_set_remove.
    destruct (decide (y = x)) as [->|]; tauto.
Qed.

Lemma set_add_fresh (x : Cell) (l : list Cell) :
  x ∉ l → set_add x l = l ++ [x].
Proof. intros. unfold set_add. by rewrite decide_False. Qed.

Lemma elem_of_set_add (x y : Cell) (l : list Cell) :
  y ∈ set_add x l ↔ y = x ∨ y ∈ l.
Proof.
  unfold set_add. case_decide; [split; [tauto|by intros [->|?]]|].
  rewrite elem_of_app, list_elem_of_singleton. tauto.
Qed.

(** *** Termination of the inner loop *)

Lemma weight_set_remove (x : Cell) (l : list Cell) :
  x ∈ l →
  weight k_ring (set_remove x l) + S (length (k_ring x)) ≤ weight k_ring l.
Proof.
  unfold weight, set_remove. induction l as [|y l IH]; intros Hx.
  - by apply elem_of_nil in Hx.
  - rewrite filter_cons. destruct (decide (y ≠ x)) as [Hne|Heq]; simpl.
    + apply elem_of_cons in Hx as [->|Hx]; [done|]. specialize (IH Hx). lia.
    + apply dec_stable in Heq as ->.
      pose proof (length_filter (λ y, y ≠ x) l).
      assert (sum_list_with (λ c, S (length (k_ring c))) (filter (λ y, y ≠ x) l)
              ≤ sum_list_with (λ c, S (length (k_ring c))) l); [|lia].
      clear. induction l as [|z l IH]; [done|].
      rewrite filter_cons. case_decide; simpl; lia.
Qed.

Lemma bfs_step_measure s s' :
  step s s' → measure k_ring s' < measure k_ring s.
Proof.
  unfold step, bfs_step, measure. destruct s as [[|c rest] g U]; simpl; [done|].
  case_decide as Hc; intros [= <-]; simpl; [|lia].
  pose proof (weight_set_remove c U Hc).
  rewrite length_app.
  pose proof (length_filter (λ n, n ∈ set_remove c U) (k_ring c)). lia.
Qed.

Lemma bfs_step_None s : bfs_step k_ring s = None ↔ queue s = [].
Proof.
  unfold bfs_step. destruct (queue s); [done|]. by case_decide.
Qed.

Lemma bfs_loop_terminates (fuel : nat) s :
  measure k_ring s ≤ fuel → ∃ s', bfs_loop k_ring fuel s = Some s'.
Proof.
  revert s. induction fuel as [|fuel IH]; intros s Hm; simpl.
  - destruct (bfs_step k_ring s) as [s'|] eqn:Hs; [|by eauto].
    apply bfs_step_measure in Hs. lia.
  - destruct (bfs_step k_ring s) as [s'|] eqn:Hs; [|by eauto].
    apply IH. apply bfs_step_measure in Hs. lia.
Qed.

(** A finished inner loop is a finite sequence of iterations that ends with
    an empty queue. *)
Lemma bfs_loop_run (fuel : nat) s s' :
  bfs_loop k_ring fuel s = Some s' → rtc step s s' ∧ queue s' = [].
Proof.
  revert s. induction fuel as [|fuel IH]; intros s; simpl.
  - destruct (bfs_step k_ring s) eqn:Hs; [done|]. intros [= <-].
    split; [done|]. by apply bfs_step_None.
  - destruct (bfs_step k_ring s) as [s1|] eqn:Hs.
    + intros [? ?]%IH. split; [|done]. by eapply rtc_l.
    + intros [= <-]. split; [done|]. by apply bfs_step_None.
Qed.

Lemma bfs_loop_mono (fuel fuel' : nat) s s' :
  bfs_loop k_ring fuel s = Some s' → fuel ≤ fuel' →
  bfs_loop k_ring fuel' s = Some s'.
Proof.
  revert fuel' s. induction fuel as [|fuel IH]; intros fuel' s; simpl.
  - destruct (bfs_step k_ring s) eqn:Hs; [done|]. intros [= <-] _.
    destruct fuel'; simpl; by rewrite Hs.
  - destruct (bfs_step k_ring s) as [s1|] eqn:Hs.
    + intros Hl Hle. destruct fuel' as [|fuel']; [lia|]. simpl. rewrite Hs.
      apply IH; [done|lia].
    + intros [= <-] _. destruct fuel'; simpl; by rewrite Hs.
Qed.

(** *** The inner loop moves cells from [unvisited] to [group] *)

(** [U0] is the unvisited set when the inner loop starts. *)
Definition split_inv (U0 : list Cell) s : Prop :=
  group s ++ unvisited s ≡ₚ U0.

Lemma split_inv_NoDup U0 s : NoDup U0 → split_inv U0 s → NoDup (group s ++ unvisited s).
Proof. intros HU Hs. by rewrite Hs. Qed.

Lemma step_split_inv U0 s s' :
  NoDup U0 → split_inv U0 s → step s s' → split_inv U0 s'.
Proof.
  intros HU Hinv. pose proof (split_inv_NoDup _ _ HU Hinv) as Hnd.
  revert Hinv Hnd. unfold step, bfs_step, split_inv.
  destruct s as [[|c rest] g U]; simpl; [done|].
  intros Hinv (Hg & Hdisj & HUnd)%NoDup_app.
  case_decide as Hc; intros [= <-]; simpl; [|done].
  rewrite set_add_fresh by (intros ?; by eapply Hdisj).
  rewrite <-Hinv, <-(assoc_L (++)). simpl. f_equiv.
  symmetry. by apply set_remove_perm.
Qed.

Lemma run_split_inv U0 s s' :
  NoDup U0 → rtc step s s' → split_inv U0 s → split_inv U0 s'.
Proof. intros HU. induction 1; eauto using step_split_inv. Qed.

(** The seed of the loop ends up in the group. *)
Lemma step_seed U0 (start_hex : Cell) s s' :
  NoDup U0 → start_hex ∈ U0 → split_inv U0 s → step s s' →
  start_hex ∈ group s ∨ start_hex ∈ queue s →
  start_hex ∈ group s' ∨ start_hex ∈ queue s'.
Proof.
  intros HU Hin Hinv. unfold step, bfs_step, split_inv in *.
  destruct s as [[|c rest] g U]; simpl in *; [done|].
  case_decide as Hc; intros [= <-]; simpl.
  - rewrite elem_of_set_add, elem_of_app. rewrite elem_of_cons.
    intros [?|[->|?]]; auto.
  - rewrite elem_of_cons. intros [?|[->|?]]; auto.
    left. rewrite <-Hinv, elem_of_app in Hin. tauto.
Qed.

Lemma run_seed U0 (start_hex : Cell) s s' :
  NoDup U0 → start_hex ∈ U0 → rtc step s s' → split_inv U0 s →
  start_hex ∈ group s ∨ start_hex ∈ queue s →
  start_hex ∈ group s' ∨ start_hex ∈ queue s'.
Proof.
  intros HU Hin. induction 1 as [|s1 s2 s3 H12 _ IH]; [done|].
  intros Hinv Hs. apply IH; eauto using step_split_inv, step_seed.
Qed.

(** What one complete inner loop does, started as the outer loop starts it. *)
Lemma bfs_run_split (start_hex : Cell) U s' :
  NoDup (start_hex :: U) →
  rtc step (BfsState [start_hex] [] (start_hex :: U)) s' → queue s' = [] →
  group s' ++ unvisited s' ≡ₚ start_hex :: U ∧ start_hex ∈ group s'.
Proof.
  intros HU Hrun Hq.
  assert (split_inv (start_hex :: U) (BfsState [start_hex] [] (start_hex :: U)))
    as Hinv by (by unfold split_inv).
  split; [by eapply run_split_inv|].
  destruct (run_seed (start_hex :: U) start_hex _ _ HU (list_elem_of_here _ _) Hrun Hinv)
    as [?|Hin]; [right; simpl; apply list_elem_of_here|done|].
  rewrite Hq in Hin. by apply elem_of_nil in Hin.
Qed.

(** *** The outer loop *)

(** The groups that the outer loop appends when it starts with the
    unvisited set [U]: one run of the inner loop per seed. *)
Inductive groups_from : list Cell → list (list Cell) → Prop :=
| groups_from_nil : groups_from [] []
| groups_from_seed start_hex U s' gs :
    rtc step (BfsState [start_hex] [] (start_hex :: U)) s' →
    queue s' = [] →
    groups_from (unvisited s') gs →
    groups_from (start_hex :: U)
      (match group s' with [] => gs | _ :: _ => group s' :: gs end).

Lemma group_loop_groups_from (fuel : nat) gs0 U gs' :
  group_loop k_ring fuel gs0 U = Some gs' →
  ∃ gs, gs' = gs0 ++ gs ∧ groups_from U gs.
Proof.
  revert gs0 U. induction fuel as [|fuel IH]; intros gs0 [|start_hex U]; simpl;
    try done; try (intros [= <-]; exists []; split;
                   [by rewrite (right_id_L [] (++))|constructor]).
  destruct (bfs_step k_ring (BfsState [start_hex] [] (start_hex :: U)))
    as [s1|] eqn:Hs1; [|by apply bfs_step_None in Hs1].
  destruct (bfs_loop k_ring fuel s1) as [[q g U']|] eqn:Hloop; [|done].
  apply bfs_loop_run in Hloop as [Hrun Hq]. simpl in Hq.
  intros (gs & -> & Hgs)%IH.
  assert (rtc step (BfsState [start_hex] [] (start_hex :: U)) (BfsState q g U'))
    as Hrun' by (by eapply rtc_l).
  pose proof (groups_from_seed _ _ _ _ Hrun' Hq Hgs) as Hnew. simpl in Hnew.
  destruct g as [|c g]; [by eauto|].
  eexists. split; [|exact Hnew]. by rewrite <-(assoc_L (++)).
Qed.

Lemma group_loop_mono (fuel fuel' : nat) gs0 U gs' :
  group_loop k_ring fuel gs0 U = Some gs' → fuel ≤ fuel' →
  group_loop k_ring fuel' gs0 U = Some gs'.
Proof.
  revert fuel' gs0 U. induction fuel as [|fuel IH]; intros fuel' gs0 [|start_hex U];
    try done; try (by destruct fuel').
  intros Hl Hle. destruct fuel' as [|fuel']; [lia|].
  cbn [group_loop] in *.
  destruct (bfs_loop k_ring (S fuel) _) as [[q g U']|] eqn:Hloop; [|done].
  rewrite (bfs_loop_mono _ (S fuel') _ _ Hloop) by lia.
  apply IH; [done|lia].
Qed.

Lemma group_loop_terminates (fuel : nat) gs0 U :
  NoDup U → weight k_ring U < fuel → ∃ gs', group_loop k_ring fuel gs0 U = Some gs'.
Proof.
  revert gs0 U. induction fuel as [|fuel IH]; intros gs0 [|start_hex U] HU Hw;
    try (by eauto); [lia|].
  cbn [group_loop].
  destruct (bfs_loop_terminates (S fuel) (BfsState [start_hex] [] (start_hex :: U)))
    as [[q g U'] Hloop]; [unfold measure, weight in *; simpl in *; lia|].
  rewrite Hloop. apply bfs_loop_run in Hloop as [Hrun Hq].
  destruct (bfs_run_split _ _ _ HU Hrun Hq) as [Hsplit Hstart]. simpl in Hsplit, Hstart, Hq.
  apply IH.
  - rewrite <-Hsplit in HU. by apply NoDup_app in HU as (_ & _ & ?).
  - unfold weight in *. rewrite <-Hsplit, sum_list_with_app in Hw.
    apply (sum_list_with_in _ (λ c, S (length (k_ring c)))) in Hstart. lia.
Qed.

(** The groups are non-empty, and together they are the unvisited set the
    loop started with, every cell once. *)
Lemma groups_from_split U gs :
  NoDup U → groups_from U gs → mjoin gs ≡ₚ U ∧ Forall (λ g, g ≠ []) gs.
Proof.
  intros HU Hgs. induction Hgs as [|start_hex U s' gs Hrun Hq _ IH]; [done|].
  destruct (bfs_run_split _ _ _ HU Hrun Hq) as [Hsplit Hstart].
  destruct IH as [IH1 IH2].
  { rewrite <-Hsplit in HU. by apply NoDup_app in HU as (_ & _ & ?). }
  destruct (group s') as [|c g] eqn:Hg; [by apply elem_of_nil in Hstart|].
  split; [|by constructor].
  rewrite <-Hsplit. simpl. rewrite IH1. done.
Qed.

Lemma NoDup_mjoin_disjoint gs : NoDup (mjoin gs) → disjoint_groups gs.
Proof.
  induction gs as [|g0 gs IH]; intros Hnd i j g h Hi Hj Hij c Hg Hh.
  { by rewrite lookup_nil in Hi. }
  simpl in Hnd. apply NoDup_app in Hnd as (_ & Hdisj & Hrest).
  destruct i as [|i], j as [|j]; simplify_eq/=.
  - apply (Hdisj c Hg), list_elem_of_join. eauto using list_elem_of_lookup_2.
  - apply (Hdisj c Hh), list_elem_of_join. eauto using list_elem_of_lookup_2.
  - eapply (IH Hrest i j); eauto.
Qed.

Lemma NoDup_mjoin_each gs g : NoDup (mjoin gs) → g ∈ gs → NoDup g.
Proof.
  induction gs as [|g0 gs IH]; simpl; [by intros _ ?%elem_of_nil|].
  intros (? & _ & ?)%NoDup_app [->|?]%elem_of_cons; auto.
Qed.

Lemma occurrences_NoDup (c : Cell) (l : list Cell) :
  NoDup l → c ∈ l → occurrences c l = 1.
Proof.
  unfold occurrences. induction 1 as [|x l Hx Hl IH]; [by intros ?%elem_of_nil|].
  rewrite filter_cons. intros [->|Hc]%elem_of_cons.
  - rewrite decide_True by done. simpl. f_equal.
    destruct (filter (λ y, y = x) l) as [|y ?] eqn:Hf; [done|].
    assert (y ∈ filter (λ y, y = x) l) as [-> ?]%list_elem_of_filter
      by (rewrite Hf; left). done.
  - rewrite decide_False by (by intros ->). auto.
Qed.

(** The run of the whole grouping: it finishes with any sufficient number of
    iterations, always with the same groups. *)
Lemma connected_groups_run (all_hexes : list Cell) :
  ∃ gs,
    (∀ fuel, enough_fuel k_ring all_hexes ≤ fuel →
             connected_groups k_ring fuel all_hexes = Some gs) ∧
    groups_from (set_of all_hexes) gs.
Proof.
  unfold connected_groups, enough_fuel.
  destruct (group_loop_terminates (S (weight k_ring (set_of all_hexes))) []
              (set_of all_hexes)) as [gs Hgs]; [apply NoDup_remove_dups|lia|].
  exists gs. split; [intros; by eapply group_loop_mono|].
  by apply group_loop_groups_from in Hgs as (? & -> & ?).
Qed.

(** *** Partition, empty input, termination *)

(** C1. For every input and every oracle the grouping returns non-empty
    groups that partition the input: a cell is in some group exactly when it
    is an input cell (so nothing the oracle adds from outside ever shows up),
    every input cell is in the group at exactly one position of the result,
    and groups at different positions are disjoint. *)
Theorem groups_partition_input (all_hexes : list Cell) :
  ∃ gs,
    (∀ fuel, enough_fuel k_ring all_hexes ≤ fuel →
             connected_groups k_ring fuel all_hexes = Some gs) ∧
    Forall (λ g, g ≠ [] ∧ NoDup g) gs ∧
    (∀ c, c ∈ all_hexes ↔ ∃ g, g ∈ gs ∧ c ∈ g) ∧
    (∀ c, c ∈ all_hexes → ∃ i g, gs !! i = Some g ∧ c ∈ g ∧
            ∀ j h, gs !! j = Some h → c ∈ h → j = i) ∧
    disjoint_groups gs.
Proof.
  destruct (connected_groups_run all_hexes) as (gs & Hrun & Hgs).
  exists gs. split; [done|].
  apply groups_from_split in Hgs as [Hperm Hne]; [|apply NoDup_remove_dups].
  assert (NoDup (mjoin gs)) as Hnd by (rewrite Hperm; apply NoDup_remove_dups).
  assert (∀ c, c ∈ all_hexes ↔ ∃ g, g ∈ gs ∧ c ∈ g) as Hmem.
  { intros c. rewrite <-(elem_of_remove_dups all_hexes), <-Hperm, list_elem_of_join.
    split; intros (g & ? & ?); eauto. }
  pose proof (NoDup_mjoin_disjoint gs Hnd) as Hdisj.
  repeat split.
  - apply Forall_forall. intros g Hg. split.
    + by eapply (proj1 (Forall_forall _ _) Hne).
    + by eapply NoDup_mjoin_each.
  - apply Hmem.
  - apply Hmem.
  - intros c (g & (i & Hi)%list_elem_of_lookup_1 & Hc)%Hmem.
    exists i, g. repeat split; [done..|].
    intros j h Hj Hh. destruct (decide (j = i)) as [|Hne']; [done|].
    by destruct (Hdisj j i h g Hj Hi Hne' c Hh).
  - done.
Qed.

(** C7. Grouping the empty set of cells gives the empty list of groups,
    whatever the oracle and without any iteration. *)
Theorem groups_of_empty_input (fuel : nat) :
  connected_groups k_ring fuel [] = Some [].
Proof. by destruct fuel. Qed.

(** C9. For every input and every oracle, cyclic or not, the grouping runs to
    completion: both loops finish within [enough_fuel] iterations, and every
    input cell then occurs exactly once in the groups taken together. *)
Theorem grouping_terminates (all_hexes : list Cell) :
  ∃ gs,
    (∀ fuel, enough_fuel k_ring all_hexes ≤ fuel →
             connected_groups k_ring fuel all_hexes = Some gs) ∧
    (∀ c, c ∈ all_hexes → occurrences c (mjoin gs) = 1).
Proof.
  destruct (connected_groups_run all_hexes) as (gs & Hrun & Hgs).
  exists gs. split; [done|]. intros c Hc.
  apply groups_from_split in Hgs as [Hperm _]; [|apply NoDup_remove_dups].
  apply occurrences_NoDup.
  - rewrite Hperm. apply NoDup_remove_dups.
  - by rewrite Hperm, elem_of_remove_dups.
Qed.

(** *** When a cell leaves [unvisited] *)

(** C3, as amended. A cell leaves [unvisited] when it is dequeued, not when
    it is enqueued: an iteration that dequeues an unvisited cell adds it to
    the group (it was not there before), removes it from [unvisited] and
    enqueues neighbours that are all still in [unvisited] afterwards; an
    iteration that dequeues any other cell changes nothing else. *)
Theorem cell_leaves_unvisited_when_dequeued (U0 : list Cell) (start_hex : Cell) s s' :
  NoDup U0 →
  rtc step (BfsState [start_hex] [] U0) s →
  step s s' →
  ∃ current_hex rest,
    queue s = current_hex :: rest ∧
    ((current_hex ∈ unvisited s ∧ (current_hex ∉ group s) ∧
      group s' = group s ++ [current_hex] ∧
      unvisited s' = set_remove current_hex (unvisited s) ∧
      (current_hex ∉ unvisited s') ∧
      ∃ new, queue s' = rest ++ new ∧ ∀ n, n ∈ new → n ∈ unvisited s')
     ∨
     ((current_hex ∉ unvisited s) ∧
      queue s' = rest ∧ group s' = group s ∧ unvisited s' = unvisited s)).
Proof.
  intros HU Hrun Hstep.
  assert (split_inv U0 s) as Hinv
    by (eapply run_split_inv; [done..|by unfold split_inv]).
  apply (split_inv_NoDup _ _ HU) in Hinv as (_ & Hdisj & _)%NoDup_app.
  revert Hstep Hdisj. unfold step, bfs_step.
  destruct s as [[|c rest] g U]; simpl; [done|].
  intros Hstep Hdisj. exists c, rest. split; [done|].
  case_decide as Hc; injection Hstep as <-; simpl; [left|right; done].
  assert (c ∉ g) as Hg by (intros ?; by eapply Hdisj).
  repeat split; [done..|by apply set_add_fresh| |].
  - rewrite elem_of_set_remove. tauto.
  - eexists. split; [done|]. by intros n [? _]%list_elem_of_filter.
Qed.

(** *** Groups are connected components when the oracle is symmetric *)

Section components.
Variable cells : list Cell.

Lemma rtc_link_in (a b : Cell) :
  a ∈ cells → rtc (link k_ring cells) a b → b ∈ cells.
Proof. intros Ha. induction 1 as [|x y z [_ Hy] _ IH]; auto. Qed.

Lemma rtc_link_sym (a b : Cell) :
  symmetric_on k_ring cells → a ∈ cells →
  rtc (link k_ring cells) a b → rtc (link k_ring cells) b a.
Proof.
  intros Hsym Ha. induction 1 as [|x y z [Hxy Hy] _ IH]; [done|].
  eapply rtc_r; [by apply IH|]. split; [by apply Hsym|done].
Qed.

(** No link leaves [U]. *)
Definition closed_under (U : list Cell) : Prop :=
  ∀ a b, a ∈ U → link k_ring cells a b → b ∈ U.

(** What holds of the inner loop started at [start_hex] with the
    unvisited set [U0]: everything grouped or queued is reachable from
    the seed, and every link out of the group leads into the group or
    into the queue. *)
Record reach_inv (U0 : list Cell) (start_hex : Cell) s : Prop := ReachInv {
  reach_group : ∀ x, x ∈ group s → rtc (link k_ring cells) start_hex x;
  reach_queue : ∀ x, x ∈ queue s → rtc (link k_ring cells) start_hex x ∧ x ∈ U0;
  reach_front : ∀ x y, x ∈ group s → link k_ring cells x y →
                       y ∈ group s ∨ y ∈ queue s
}.

Lemma step_reach_inv U0 (start_hex : Cell) s s' :
  NoDup U0 → (∀ x, x ∈ U0 → x ∈ cells) → closed_under U0 →
  split_inv U0 s → reach_inv U0 start_hex s → step s s' →
  reach_inv U0 start_hex s'.
Proof.
  intros HU Hsub Hclosed Hinv [Hg Hq Hf].
  assert (∀ x, x ∈ U0 ↔ x ∈ group s ∨ x ∈ unvisited s) as Hmem.
  { intros x. by rewrite <-Hinv, elem_of_app. }
  revert Hinv Hg Hq Hf Hmem. unfold step, bfs_step, split_inv.
  destruct s as [[|c rest] g U]; simpl; [done|].
  intros Hinv Hg Hq Hf Hmem.
  destruct (Hq c) as [Hc_reach Hc_U0]; [left|].
  case_decide as Hc; intros [= <-]; split; simpl.
  - intros x [->|?]%elem_of_set_add; auto.
  - intros x [Hx|[Hx Hk]%list_elem_of_filter]%elem_of_app.
    + apply Hq. by right.
    + apply elem_of_set_remove in Hx as [Hx _].
      assert (x ∈ U0) by (apply Hmem; auto).
      split; [|done]. eapply rtc_r; [done|]. split; auto.
  - intros x y [->|Hx]%elem_of_set_add Hxy.
    + rewrite elem_of_set_add, elem_of_app, list_elem_of_filter,
        elem_of_set_remove.
      destruct (decide (y = c)) as [|Hne]; [by auto|].
      specialize (Hclosed _ _ Hc_U0 Hxy). apply Hmem in Hclosed as [?|?]; [by auto|].
      right. right. destruct Hxy. done.
    + rewrite elem_of_set_add, elem_of_app.
      destruct (Hf x y Hx Hxy) as [?|[->|?]%elem_of_cons]; auto.
  - done.
  - intros x Hx. apply Hq. by right.
  - intros x y Hx Hxy.
    destruct (Hf x y Hx Hxy) as [?|[->|?]%elem_of_cons]; auto.
    left. apply Hmem in Hc_U0. tauto.
Qed.

Lemma run_reach_inv U0 (start_hex : Cell) s s' :
  NoDup U0 → (∀ x, x ∈ U0 → x ∈ cells) → closed_under U0 →
  rtc step s s' →
  split_inv U0 s → reach_inv U0 start_hex s → reach_inv U0 start_hex s'.
Proof.
  intros HU Hsub Hclosed. induction 1 as [|s1 s2 s3 H12 _ IH]; [done|].
  intros Hinv Hr. apply IH; eauto using step_split_inv, step_reach_inv.
Qed.

(** One complete inner loop collects exactly what is reachable from its
    seed. *)
Lemma bfs_run_component (start_hex : Cell) U s' :
  NoDup (start_hex :: U) → (∀ x, x ∈ start_hex :: U → x ∈ cells) →
  closed_under (start_hex :: U) →
  rtc step (BfsState [start_hex] [] (start_hex :: U)) s' → queue s' = [] →
  ∀ x, x ∈ group s' ↔ rtc (link k_ring cells) start_hex x.
Proof.
  intros HU Hsub Hclosed Hrun Hq.
  destruct (bfs_run_split _ _ _ HU Hrun Hq) as [_ Hstart].
  assert (reach_inv (start_hex :: U) start_hex s') as [Hg _ Hf].
  { eapply run_reach_inv; [done..|by unfold split_inv|].
    split; simpl.
    - by intros x ?%elem_of_nil.
    - intros x ->%list_elem_of_singleton. split; [done|left].
    - by intros x y ?%elem_of_nil. }
  assert (∀ a b, rtc (link k_ring cells) a b → a ∈ group s' → b ∈ group s')
    as Hcl.
  { induction 1 as [|a b c Hab _ IH]; [done|]. intros Ha. apply IH.
    destruct (Hf a b Ha Hab) as [?|Hb]; [done|].
    rewrite Hq in Hb. by apply elem_of_nil in Hb. }
  intros x. split; [apply Hg|]. intros Hx. by eapply Hcl.
Qed.

(** With a symmetric oracle the cells left unvisited after an inner loop
    are again closed under links, so every group is the set of cells
    reachable from its seed. *)
Lemma groups_from_components U gs :
  symmetric_on k_ring cells →
  NoDup U → (∀ x, x ∈ U → x ∈ cells) → closed_under U →
  groups_from U gs →
  Forall (λ g, ∃ seed, seed ∈ cells ∧
                       ∀ x, x ∈ g ↔ rtc (link k_ring cells) seed x) gs.
Proof.
  intros Hsym HU Hsub Hclosed Hgs.
  induction Hgs as [|start_hex U s' gs Hrun Hq _ IH]; [done|].
  destruct (bfs_run_split _ _ _ HU Hrun Hq) as [Hsplit Hstart].
  pose proof (bfs_run_component _ _ _ HU Hsub Hclosed Hrun Hq) as Hcomp.
  assert (∀ x, x ∈ start_hex :: U ↔ x ∈ group s' ∨ x ∈ unvisited s') as Hmem.
  { intros x. by rewrite <-Hsplit, elem_of_app. }
  rewrite <-Hsplit in HU. apply NoDup_app in HU as (_ & Hdisj & HU').
  assert (Forall (λ g, ∃ seed, seed ∈ cells ∧
            ∀ x, x ∈ g ↔ rtc (link k_ring cells) seed x) gs) as Hrest.
  { apply IH; [done| |].
    - intros x Hx. apply Hsub, Hmem. auto.
    - intros a b Ha Hab.
      assert (a ∈ start_hex :: U) as Ha' by (apply Hmem; auto).
      destruct (proj1 (Hmem b) (Hclosed _ _ Ha' Hab)) as [Hb|?]; [|done].
      destruct (Hdisj a); [|done].
      apply Hcomp. eapply rtc_r; [by apply Hcomp|].
      destruct Hab. split; [|by apply Hsub]. apply Hsym; auto. }
  destruct (group s') as [|c g]; [done|].
  constructor; [|done]. exists start_hex. split; [|done].
  apply Hsub. left.
Qed.

Lemma rtc_link_meet (seed seed' c x : Cell) :
  symmetric_on k_ring cells → seed ∈ cells → seed' ∈ cells →
  rtc (link k_ring cells) seed c → rtc (link k_ring cells) seed' c →
  rtc (link k_ring cells) seed x → rtc (link k_ring cells) seed' x.
Proof.
  intros Hsym Hs Hs' Hc Hc' Hx.
  etrans; [exact Hc'|]. etrans; [|exact Hx]. by apply rtc_link_sym.
Qed.

Lemma connected_groups_components :
  symmetric_on k_ring cells →
  ∃ gs,
    (∀ fuel, enough_fuel k_ring cells ≤ fuel →
             connected_groups k_ring fuel cells = Some gs) ∧
    (∀ c, c ∈ cells ↔ ∃ g, g ∈ gs ∧ c ∈ g) ∧
    NoDup (mjoin gs) ∧
    Forall (λ g, ∃ seed, seed ∈ cells ∧
                         ∀ x, x ∈ g ↔ rtc (link k_ring cells) seed x) gs.
Proof.
  intros Hsym. destruct (connected_groups_run cells) as (gs & Hrun & Hgs).
  exists gs. split; [done|].
  pose proof (groups_from_split _ _ (NoDup_remove_dups cells) Hgs) as [Hperm _].
  repeat split.
  - intros Hc.
    assert (c ∈ mjoin gs) as (g & ? & ?)%list_elem_of_join
      by (rewrite Hperm; by apply elem_of_remove_dups).
    eauto.
  - intros (g & Hg & Hc). apply elem_of_remove_dups. rewrite <-Hperm.
    apply list_elem_of_join. eauto.
  - rewrite Hperm. apply NoDup_remove_dups.
  - apply (groups_from_components (set_of cells)); [done|apply NoDup_remove_dups|..].
    + intros x. apply elem_of_remove_dups.
    + intros a b _ [_ Hb]. by apply elem_of_remove_dups.
    + done.
Qed.

End components.

Lemma link_ext (cells cells' : list Cell) (a b : Cell) :
  (∀ c, c ∈ cells ↔ c ∈ cells') →
  rtc (link k_ring cells) a b → rtc (link k_ring cells') a b.
Proof.
  intros Hext. induction 1 as [|x y z [Hxy Hy] _ IH]; [done|].
  eapply rtc_l; [|done]. split; [done|]. by apply Hext.
Qed.

Lemma NoDup_singleton_eq (c : Cell) (g : list Cell) :
  NoDup g → (∀ x, x ∈ g ↔ x = c) → g = [c].
Proof.
  intros Hnd Hg. destruct g as [|x [|y g]].
  - assert (c ∈ []) as []%elem_of_nil. by apply Hg.
  - f_equal. apply Hg. left.
  - assert (x = c) as -> by (apply Hg; left).
    assert (y = c) as -> by (apply Hg; right; left).
    apply NoDup_cons in Hnd as [[] _]. left.
Qed.

(** *** Chains and groups *)

(** C2, as amended. For every input and every oracle that is symmetric on
    the input, two input cells are in the same group exactly when a chain of
    links inside the input leads from one to the other; a cell all of whose
    links inside the input lead back to itself is a group of its own. *)
Theorem same_group_iff_chain (all_hexes : list Cell) :
  symmetric_on k_ring all_hexes →
  ∃ gs,
    (∀ fuel, enough_fuel k_ring all_hexes ≤ fuel →
             connected_groups k_ring fuel all_hexes = Some gs) ∧
    (∀ a b, a ∈ all_hexes → b ∈ all_hexes →
            same_group gs a b ↔ rtc (link k_ring all_hexes) a b) ∧
    (∀ c, c ∈ all_hexes → (∀ n, link k_ring all_hexes c n → n = c) → [c] ∈ gs).
Proof.
  intros Hsym.
  destruct (connected_groups_components all_hexes Hsym)
    as (gs & Hrun & Hmem & Hnd & Hcomp).
  rewrite Forall_forall in Hcomp.
  exists gs. split; [done|]. split.
  - intros a b Ha Hb. split.
    + intros (g & Hg & Hag & Hbg).
      destruct (Hcomp g Hg) as (seed & Hseed & Hreach).
      etrans; [|by apply Hreach].
      apply rtc_link_sym; [done..|]. by apply Hreach.
    + intros Hab. apply Hmem in Ha as (g & Hg & Hag).
      exists g. repeat split; [done..|].
      destruct (Hcomp g Hg) as (seed & Hseed & Hreach).
      apply Hreach. etrans; [|exact Hab]. by apply Hreach.
  - intros c Hc Honly. pose proof Hc as (g & Hg & Hcg)%Hmem.
    destruct (Hcomp g Hg) as (seed & Hseed & Hreach).
    assert (∀ x, rtc (link k_ring all_hexes) c x → x = c) as Hloop.
    { induction 1 as [|x y z Hxy _ IH]; [done|].
      apply Honly in Hxy as ->. auto. }
    assert (seed = c) as ->.
    { apply Hloop, rtc_link_sym; [done..|]. by apply Hreach. }
    replace [c] with g; [done|].
    apply NoDup_singleton_eq; [by eapply NoDup_mjoin_each|].
    intros x. rewrite Hreach. split; [apply Hloop|by intros ->].
Qed.

(** C6, as amended. For every input and every oracle that is symmetric on
    the input, supplying the input cells in another order gives the same
    set of groups. *)
Theorem groups_independent_of_order (all_hexes all_hexes' : list Cell) :
  symmetric_on k_ring all_hexes →
  all_hexes ≡ₚ all_hexes' →
  ∃ gs gs',
    (∀ fuel, enough_fuel k_ring all_hexes ≤ fuel →
             connected_groups k_ring fuel all_hexes = Some gs) ∧
    (∀ fuel, enough_fuel k_ring all_hexes' ≤ fuel →
             connected_groups k_ring fuel all_hexes' = Some gs') ∧
    same_groups gs gs'.
Proof.
  intros Hsym Hperm.
  assert (∀ c, c ∈ all_hexes ↔ c ∈ all_hexes') as Hext
    by (intros c; by rewrite Hperm).
  assert (symmetric_on k_ring all_hexes') as Hsym'.
  { intros a b Ha Hb. apply Hsym; by apply Hext. }
  destruct (connected_groups_components all_hexes Hsym)
    as (gs & Hrun & Hmem & _ & Hcomp).
  destruct (connected_groups_components all_hexes' Hsym')
    as (gs' & Hrun' & Hmem' & _ & Hcomp').
  rewrite Forall_forall in Hcomp, Hcomp'.
  assert (∀ g g' c, g ∈ gs → g' ∈ gs' → c ∈ g → c ∈ g' → ∀ x, x ∈ g ↔ x ∈ g')
    as Hsame.
  { intros g g' c Hg Hg' Hc Hc' x.
    destruct (Hcomp g Hg) as (seed & Hseed & Hreach).
    destruct (Hcomp' g' Hg') as (seed' & Hseed' & Hreach').
    apply Hreach in Hc. apply Hreach', (link_ext all_hexes' all_hexes) in Hc';
      [|by intros ?; rewrite Hext].
    apply Hext in Hseed'.
    rewrite Hreach, Hreach'. split; intros Hx.
    - apply (link_ext all_hexes); [done|]. by eapply (rtc_link_meet _ seed seed' c).
    - apply (link_ext all_hexes' all_hexes) in Hx; [|by intros ?; rewrite Hext].
      by eapply (rtc_link_meet _ seed' seed c). }
  exists gs, gs'. repeat split; [done..| |].
  - intros g Hg. destruct (Hcomp g Hg) as (seed & Hseed & Hreach).
    assert (seed ∈ g) as Hsg by (by apply Hreach).
    apply Hext, Hmem' in Hseed as (g' & Hg' & Hsg'). eauto.
  - intros g' Hg'. destruct (Hcomp' g' Hg') as (seed' & Hseed' & Hreach').
    assert (seed' ∈ g') as Hsg' by (by apply Hreach').
    apply Hext, Hmem in Hseed' as (g & Hg & Hsg). eauto.
Qed.

End grouping_facts.

(** ** The grouping on the small oracles *)

Section grouping_scenarios.
Import Scenarios.

(** Cells 3 and 5 are named by the oracle and are not in the input. *)
Example row_oracle_groups_of_part :
  connected_groups row_oracle (enough_fuel row_oracle [1; 2; 4]) [1; 2; 4]
  = Some [[1; 2]; [4]].
Proof. vm_compute. reflexivity. Qed.

(** The three links 1-2, 2-3, 4-5 give two groups. *)
Example row_oracle_groups :
  connected_groups row_oracle (enough_fuel row_oracle [1; 2; 3; 4; 5]) [1; 2; 3; 4; 5]
  = Some [[1; 2; 3]; [4; 5]].
Proof. vm_compute. reflexivity. Qed.

Lemma row_oracle_symmetric (cells : list nat) : symmetric_on row_oracle cells.
Proof.
  intros a b _ _.
  destruct a as [|[|[|[|[|[|a]]]]]]; simpl; try (by intros ?%elem_of_nil);
    rewrite ?elem_of_cons, elem_of_nil; intros Hb; destruct_or!; try done;
    subst; simpl; rewrite ?elem_of_cons; auto.
Qed.

Lemma NoDup_123 : NoDup [1; 2; 3].
Proof. repeat constructor; rewrite ?elem_of_cons, ?elem_of_nil; lia. Qed.

(** The first two iterations of the inner loop on the triangle. *)
Lemma triangle_first_step :
  step triangle_oracle (BfsState [1] [] [1; 2; 3]) (BfsState [2; 3] [1] [2; 3]).
Proof. reflexivity. Qed.

Lemma triangle_second_step :
  step triangle_oracle (BfsState [2; 3] [1] [2; 3]) (BfsState [3; 3] [1; 2] [3]).
Proof. reflexivity. Qed.

(** C3, as stated, fails on the triangle: after two iterations cell 3 is in
    the queue twice and still in [unvisited]. *)
Lemma triangle_queue_repeats_cell :
  ¬ (∀ s, rtc (step triangle_oracle) (BfsState [1] [] (set_of [1; 2; 3])) s →
          NoDup (queue s) ∧ ∀ c, c ∈ queue s → c ∉ unvisited s).
Proof.
  intros Hclaim.
  destruct (Hclaim (BfsState [3; 3] [1; 2] [3])) as [Hnd _].
  - eapply rtc_l; [exact triangle_first_step|].
    eapply rtc_l; [exact triangle_second_step|]. done.
  - simpl in Hnd. apply NoDup_cons in Hnd as [[] _]. left.
Qed.

(** The second iteration on the triangle is an instance of the amended C3. *)
Lemma cell_leaves_unvisited_on_triangle :
  NoDup [1; 2; 3] ∧
  rtc (step triangle_oracle) (BfsState [1] [] [1; 2; 3]) (BfsState [2; 3] [1] [2; 3]) ∧
  step triangle_oracle (BfsState [2; 3] [1] [2; 3]) (BfsState [3; 3] [1; 2] [3]) ∧
  ∃ current_hex rest,
    [2; 3] = current_hex :: rest ∧
    ((current_hex ∈ [2; 3] ∧ (current_hex ∉ [1]) ∧
      [1; 2] = [1] ++ [current_hex] ∧
      [3] = set_remove current_hex [2; 3] ∧
      (current_hex ∉ [3]) ∧
      ∃ new, [3; 3] = rest ++ new ∧ ∀ n, n ∈ new → n ∈ [3])
     ∨
     ((current_hex ∉ [2; 3]) ∧ [3; 3] = rest ∧ [1; 2] = [1] ∧ [3] = [2; 3])).
Proof.
  assert (rtc (step triangle_oracle) (BfsState [1] [] [1; 2; 3])
            (BfsState [2; 3] [1] [2; 3])) as Hrun
    by (eapply rtc_l; [exact triangle_first_step|done]).
  repeat split; [exact NoDup_123|exact Hrun|].
  exact (cell_leaves_unvisited_when_dequeued triangle_oracle [1; 2; 3] 1
           (BfsState [2; 3] [1] [2; 3]) (BfsState [3; 3] [1; 2] [3])
           NoDup_123 Hrun triangle_second_step).
Defined.

(** C2, as stated, fails on the one-way oracle: cells 2 and 3 are grouped
    together with cell 1, and no chain leads from 2 to 3. *)
Lemma one_way_groups_unchained_cells :
  ∃ gs, connected_groups one_way_oracle (enough_fuel one_way_oracle [1; 2; 3]) [1; 2; 3]
        = Some gs ∧
        ¬ (same_group gs 2 3 ↔ rtc (link one_way_oracle [1; 2; 3]) 2 3).
Proof.
  exists [[1; 2; 3]]. split; [vm_compute; reflexivity|].
  intros [Hchain _].
  assert (rtc (link one_way_oracle [1; 2; 3]) 2 3) as Hrtc.
  { apply Hchain. exists [1; 2; 3].
    split; [left|split; [right; left|right; right; left]]. }
  inversion Hrtc as [|x y z [Hy _]]; subst. by apply elem_of_nil in Hy.
Qed.

(** The amended C2 on the row of cells, whose oracle is symmetric. *)
Lemma same_group_iff_chain_on_row :
  symmetric_on row_oracle [1; 2; 3; 4; 5] ∧
  ∃ gs,
    (∀ fuel, enough_fuel row_oracle [1; 2; 3; 4; 5] ≤ fuel →
             connected_groups row_oracle fuel [1; 2; 3; 4; 5] = Some gs) ∧
    (∀ a b, a ∈ [1; 2; 3; 4; 5] → b ∈ [1; 2; 3; 4; 5] →
            same_group gs a b ↔ rtc (link row_oracle [1; 2; 3; 4; 5]) a b) ∧
    (∀ c, c ∈ [1; 2; 3; 4; 5] →
          (∀ n, link row_oracle [1; 2; 3; 4; 5] c n → n = c) → [c] ∈ gs).
Proof.
  split; [apply row_oracle_symmetric|].
  exact (same_group_iff_chain row_oracle [1; 2; 3; 4; 5] (row_oracle_symmetric _)).
Defined.

(** C6, as stated, fails on the one-way oracle: seeded at cell 1 the cells
    form one group, seeded at cell 2 they form two. *)
Lemma one_way_groups_depend_on_order :
  [1; 2; 3] ≡ₚ [2; 1; 3] ∧
  ∃ gs gs',
    connected_groups one_way_oracle (enough_fuel one_way_oracle [1; 2; 3]) [1; 2; 3]
      = Some gs ∧
    connected_groups one_way_oracle (enough_fuel one_way_oracle [2; 1; 3]) [2; 1; 3]
      = Some gs' ∧
    ¬ same_groups gs gs'.
Proof.
  split; [apply Permutation_swap|].
  exists [[1; 2; 3]], [[2]; [1; 3]]. repeat split; try (vm_compute; reflexivity).
  intros [Hl _].
  destruct (Hl [1; 2; 3] (list_elem_of_here _ _)) as (g' & Hg' & Hsame).
  rewrite !elem_of_cons, elem_of_nil in Hg'. destruct_or!; subst; try done.
  - assert (1 ∈ [2]) as Hin by (apply Hsame; left).
    rewrite list_elem_of_singleton in Hin. lia.
  - assert (2 ∈ [1; 3]) as Hin by (apply Hsame; right; left).
    rewrite !elem_of_cons, elem_of_nil in Hin. lia.
Qed.

(** The amended C6 on the row of cells, supplied in two orders. *)
Lemma groups_independent_of_order_on_row :
  symmetric_on row_oracle [1; 2; 3; 4; 5] ∧
  [1; 2; 3; 4; 5] ≡ₚ [2; 1; 3; 5; 4] ∧
  ∃ gs gs',
    (∀ fuel, enough_fuel row_oracle [1; 2; 3; 4; 5] ≤ fuel →
             connected_groups row_oracle fuel [1; 2; 3; 4; 5] = Some gs) ∧
    (∀ fuel, enough_fuel row_oracle [2; 1; 3; 5; 4] ≤ fuel →
             connected_groups row_oracle fuel [2; 1; 3; 5; 4] = Some gs') ∧
    same_groups gs gs'.
Proof.
  assert ([1; 2; 3; 4; 5] ≡ₚ [2; 1; 3; 5; 4]) as Hperm.
  { etrans; [apply Permutation_swap|]. do 3 f_equiv. apply Permutation_swap. }
  repeat split; [apply row_oracle_symmetric|exact Hperm|].
  exact (groups_independent_of_order row_oracle [1; 2; 3; 4; 5] [2; 1; 3; 5; 4]
           (row_oracle_symmetric _) Hperm).
Defined.

End grouping_scenarios.

(** ** Facts about the square grid *)

Import SquareGrid.

Section square_grid_names.
Local Open Scope Z_scope.

(** *** Cell names *)

Lemma append_nil (s : string) : "" +:+ s = s.
Proof. reflexivity. Qed.

Lemma append_cons (a : Ascii.ascii) (s t : string) :
  String a s +:+ t = String a (s +:+ t).
Proof. reflexivity. Qed.

Lemma count_char_app (c : Ascii.ascii) (s t : string) :
  count_char c (s +:+ t) = (count_char c s + count_char c t)%nat.
Proof.
  induction s as [|a s IH]; [done|].
  rewrite append_cons. simpl. rewrite IH. lia.
Qed.

Lemma count_underscore_uint (d : Decimal.uint) :
  count_char "_"%char (NilEmpty.string_of_uint d) = 0%nat.
Proof. induction d; simpl; done. Qed.

(** A number is written without an underscore. *)
Lemma count_underscore_str (n : Z) : count_char "_"%char (str n) = 0%nat.
Proof.
  unfold str, NilZero.string_of_int, NilZero.string_of_uint.
  destruct (Z.to_int n) as [d|d]; destruct d; simpl; try done;
    apply count_underscore_uint.
Qed.

Lemma str_inj (a b : Z) : str a = str b → a = b.
Proof.
  unfold str. intros Hab. apply DecimalZ.to_int_inj.
  assert (∀ n, NilZero.int_of_string (NilZero.string_of_int (Z.to_int n))
               = Some (Z.to_int n)) as Hisi.
  { intros n. apply NilZero.isi; destruct n; simpl; try done;
      intros [= Hnil]; by apply Unsigned.to_uint_nonnil in Hnil. }
  apply (inj Some). by rewrite <-!Hisi, Hab.
Qed.

(** Two strings cut at their first underscore. *)
Lemma split_at_underscore (s1 s2 t1 t2 : string) :
  count_char "_"%char s1 = 0%nat → count_char "_"%char t1 = 0%nat →
  s1 +:+ "_" +:+ s2 = t1 +:+ "_" +:+ t2 → s1 = t1 ∧ s2 = t2.
Proof.
  revert t1. induction s1 as [|a s1 IH]; intros [|b t1];
    rewrite ?append_cons, ?append_nil; simpl.
  - by intros _ _ [= ->].
  - intros _ Hb [= <- _]. done.
  - intros Ha _ [= -> _]. done.
  - intros Ha Hb [= -> Hrest].
    destruct (IH t1) as [-> ->]; [lia..|done|done].
Qed.

Lemma cell_name_inj (x y x' y' : Z) :
  cell_name x y = cell_name x' y' → x = x' ∧ y = y'.
Proof.
  unfold cell_name.
  intros [?%str_inj ?%str_inj]%split_at_underscore;
    auto using count_underscore_str.
Qed.

Lemma count_underscore_cell_name (x y : Z) :
  count_char "_"%char (cell_name x y) = 1%nat.
Proof.
  unfold cell_name. by rewrite !count_char_app, !count_underscore_str.
Qed.

(** *** The Manhattan neighbourhood *)

Lemma elem_of_range (start stop i : Z) :
  i ∈ range start stop ↔ start ≤ i < stop.
Proof. unfold range. rewrite elem_of_seqZ. lia. Qed.

Lemma elem_of_square_grid_neighbors (grid_x grid_y k : Z) (name : string) :
  name ∈ square_grid_neighbors grid_x grid_y k ↔
  ∃ dx dy, Z.abs dx + Z.abs dy ≤ k ∧ name = cell_name (grid_x + dx) (grid_y + dy).
Proof.
  unfold square_grid_neighbors. rewrite list_elem_of_bind. split.
  - intros (dx & (dy & Hname & _)%list_elem_of_bind & _).
    case_decide; [|by apply elem_of_nil in Hname].
    apply list_elem_of_singleton in Hname. eauto.
  - intros (dx & dy & Hk & ->). exists dx. split.
    + apply list_elem_of_bind. exists dy. split.
      * rewrite decide_True by done. left.
      * apply elem_of_range. lia.
    + apply elem_of_range. lia.
Qed.

Lemma own_name_among_neighbors (grid_x grid_y k : Z) :
  0 ≤ k → cell_name grid_x grid_y ∈ square_grid_neighbors grid_x grid_y k.
Proof.
  intros Hk. apply elem_of_square_grid_neighbors. exists 0, 0.
  split; [simpl; lia|]. f_equal; lia.
Qed.

(** C8. For every cell [(grid_x, grid_y)] and every [k >= 0] the neighbours
    are exactly the cells at Manhattan distance at most [k]: every name in the
    result is the name of such a cell, every such cell has its name in the
    result, and the cell itself is among them. *)
Theorem square_grid_neighbors_manhattan (grid_x grid_y k : Z) :
  0 ≤ k →
  (∀ name, name ∈ square_grid_neighbors grid_x grid_y k →
           ∃ x y, name = cell_name x y ∧
                  Z.abs (x - grid_x) + Z.abs (y - grid_y) ≤ k) ∧
  (∀ x y, cell_name x y ∈ square_grid_neighbors grid_x grid_y k ↔
          Z.abs (x - grid_x) + Z.abs (y - grid_y) ≤ k) ∧
  cell_name grid_x grid_y ∈ square_grid_neighbors grid_x grid_y k.
Proof.
  intros Hk. split; [|split].
  - intros name (dx & dy & Hd & ->)%elem_of_square_grid_neighbors.
    eexists _, _. split; [done|]. lia.
  - intros x y. rewrite elem_of_square_grid_neighbors. split.
    + intros (dx & dy & Hd & [-> ->]%cell_name_inj). lia.
    + intros Hd. exists (x - grid_x), (y - grid_y). split; [done|].
      f_equal; lia.
  - by apply own_name_among_neighbors.
Qed.

(** C8 at the centre of the neighbour benchmark, for [k = 1]. *)
Lemma square_grid_neighbors_manhattan_seoul :
  0 ≤ 1 ∧
  (∀ name, name ∈ square_grid_neighbors 325063 96170 1 →
           ∃ x y, name = cell_name x y ∧
                  Z.abs (x - 325063) + Z.abs (y - 96170) ≤ 1) ∧
  (∀ x y, cell_name x y ∈ square_grid_neighbors 325063 96170 1 ↔
          Z.abs (x - 325063) + Z.abs (y - 96170) ≤ 1) ∧
  cell_name 325063 96170 ∈ square_grid_neighbors 325063 96170 1.
Proof.
  split; [lia|].
  exact (square_grid_neighbors_manhattan 325063 96170 1 ltac:(lia)).
Defined.

(** *** The index and the neighbourhood *)

Lemma append_assoc (s t u : string) : (s +:+ t) +:+ u = s +:+ t +:+ u.
Proof.
  induction s as [|a s IH]; [done|]. rewrite !append_cons. by f_equal.
Qed.

Lemma square_grid_index_name (lat lng : float) (resolution : Z) :
  square_grid_index lat lng resolution
  = '(grid_x, grid_y) ← grid_coordinates lat lng resolution;
    Some (cell_name grid_x grid_y +:+ "_" +:+ str resolution).
Proof.
  unfold square_grid_index, grid_coordinates, cell_name.
  destruct (grid_size_of resolution) as [grid_size|]; simpl; [|done].
  destruct (int (lng / grid_size)) as [grid_x|]; simpl; [|done].
  destruct (int (lat / grid_size)) as [grid_y|]; simpl; [|done].
  by rewrite !append_assoc.
Qed.

(** C5, as amended. The neighbourhood is computed over the same grid
    coordinates as the index, but it names cells differently: whenever the
    index of a point is defined, the neighbourhood of the point's grid
    coordinates at any [k >= 0] holds the name [x_y] of those coordinates,
    the index is that name followed by [_resolution], and the index itself
    is not in the neighbourhood. *)
Theorem index_is_neighbor_name_with_resolution
    (lat lng : float) (resolution k : Z) (index : string) :
  square_grid_index lat lng resolution = Some index →
  0 ≤ k →
  ∃ grid_x grid_y,
    grid_coordinates lat lng resolution = Some (grid_x, grid_y) ∧
    index = cell_name grid_x grid_y +:+ "_" +:+ str resolution ∧
    cell_name grid_x grid_y ∈ square_grid_neighbors grid_x grid_y k ∧
    index ∉ square_grid_neighbors grid_x grid_y k.
Proof.
  rewrite square_grid_index_name. intros Hindex Hk.
  destruct (grid_coordinates lat lng resolution) as [[grid_x grid_y]|];
    simplify_eq/=.
  exists grid_x, grid_y. repeat split.
  - by apply own_name_among_neighbors.
  - intros (dx & dy & _ & Hname)%elem_of_square_grid_neighbors.
    apply (f_equal (count_char "_"%char)) in Hname.
    rewrite !count_char_app, !count_underscore_cell_name,
      count_underscore_str in Hname.
    simpl in Hname. lia.
Qed.

(** *** Rounding towards zero *)

(** Where the value has a floor, [int] is defined: it is the floor of a value
    that is not negative, and the ceiling of a negative one. *)
Lemma int_floor_ceil (x : float) (f : Z) :
  floor x = Some f →
  ∃ g, int x = Some g ∧ (0 ≤ f → g = f) ∧ (f < 0 → ceil x = Some g).
Proof.
  unfold ceil, floor, int. rewrite opp_spec.
  destruct (Prim2SF x) as [s|s| |[|] m e]; simpl; try done.
  - intros [= <-]. exists 0. split; [done|]. split; [done|lia].
  - intros [= <-]. case_decide as He.
    + eexists. split; [done|]. split; [done|]. intros _. f_equal. lia.
    + assert (0 < 2 ^ (- e)) as Hpow by (apply Z.pow_pos_nonneg; lia).
      eexists. split; [done|]. split.
      * intros Hf. exfalso. revert Hf. apply Z.lt_nge.
        apply Z.div_lt_upper_bound; lia.
      * intros _. f_equal.
        rewrite <-(Z.quot_div_nonneg (Z.pos m)) by lia.
        change (Z.neg m) with (- Z.pos m). rewrite Z.quot_opp_l; lia.
  - intros [= <-]. case_decide as He.
    + eexists. split; [done|]. split; [done|]. intros Hf. exfalso.
      assert (0 < 2 ^ e) by (apply Z.pow_pos_nonneg; lia). nia.
    + assert (0 < 2 ^ (- e)) as Hpow by (apply Z.pow_pos_nonneg; lia).
      eexists. split; [done|]. split.
      * intros _. apply Z.quot_div_nonneg; lia.
      * intros Hf. exfalso. revert Hf. apply Z.le_ngt.
        apply Z.div_pos; lia.
Qed.

(** C4, as amended. Whenever the grid size and the two quotients are finite,
    the index is defined and is [x_y_resolution], where [x] and [y] are the
    quotients [lng / grid_size] and [lat / grid_size] rounded towards zero:
    the floor of a quotient that is not negative, the ceiling of a negative
    one. *)
Theorem square_grid_index_rounds_towards_zero
    (lat lng : float) (resolution : Z) (grid_size : float) (fx fy : Z) :
  grid_size_of resolution = Some grid_size →
  floor (lng / grid_size) = Some fx →
  floor (lat / grid_size) = Some fy →
  ∃ grid_x grid_y,
    square_grid_index lat lng resolution
    = Some (str grid_x +:+ "_" +:+ str grid_y +:+ "_" +:+ str resolution) ∧
    (0 ≤ fx → grid_x = fx) ∧ (fx < 0 → ceil (lng / grid_size) = Some grid_x) ∧
    (0 ≤ fy → grid_y = fy) ∧ (fy < 0 → ceil (lat / grid_size) = Some grid_y).
Proof.
  intros Hsize (grid_x & Hx & Hx0 & Hx1)%int_floor_ceil
    (grid_y & Hy & Hy0 & Hy1)%int_floor_ceil.
  exists grid_x, grid_y. unfold square_grid_index.
  rewrite Hsize. simpl. rewrite Hx. simpl. rewrite Hy. simpl. done.
Qed.

End square_grid_names.

(** *** Division by a larger float

    The quotient of two binary64 floats is the exact quotient rounded to the
    nearest float ([div_spec]). When the dividend is smaller in magnitude than
    the divisor the exact quotient is at most [1 - 2 ^ -53], which is a float,
    so the rounded quotient stays below one. *)

Section float_division.
Local Open Scope Z_scope.
Local Set Warnings "-inexact-float".

Local Ltac Zify.zify_post_hook ::= Z.to_euclidean_division_equations.

Lemma iter_pos_nat {A} (f : A → A) (p : positive) (x : A) :
  iter_pos f p x = Nat.iter (Pos.to_nat p) f x.
Proof.
  revert x. induction p as [p IH|p IH|]; intros x; cbn [iter_pos].
  - rewrite !IH, Pos2Nat.inj_xI, <-Nat.iter_add, <-Nat.iter_succ_r.
    f_equal. lia.
  - rewrite !IH, Pos2Nat.inj_xO, <-Nat.iter_add. f_equal. lia.
  - done.
Qed.

Lemma shr_1_m (mrs : shr_record) :
  0 ≤ shr_m mrs → shr_m (shr_1 mrs) = shr_m mrs / 2.
Proof. destruct mrs as [[|[p|p|]|p] r s]; simpl; lia. Qed.

Lemma shr_1_exact (m : Z) :
  0 ≤ m → m mod 2 = 0 →
  shr_1 (Build_shr_record m false false) = Build_shr_record (m / 2) false false.
Proof. destruct m as [|[p|p|]|p]; simpl; intros; try f_equal; lia. Qed.

Lemma iter_shr_1_m (n : nat) (mrs : shr_record) :
  0 ≤ shr_m mrs →
  shr_m (Nat.iter n shr_1 mrs) = shr_m mrs / 2 ^ Z.of_nat n.
Proof.
  revert mrs. induction n as [|n IH]; intros mrs Hm.
  - simpl. by rewrite Z.div_1_r.
  - rewrite Nat.iter_succ_r, IH, shr_1_m by (rewrite ?shr_1_m by done; lia).
    rewrite Nat2Z.inj_succ, Z.pow_succ_r, Z.div_div by lia. done.
Qed.

Lemma iter_shr_1_exact (n : nat) (m : Z) :
  0 ≤ m → m mod 2 ^ Z.of_nat n = 0 →
  Nat.iter n shr_1 (Build_shr_record m false false)
  = Build_shr_record (m / 2 ^ Z.of_nat n) false false.
Proof.
  revert m. induction n as [|n IH]; intros m Hm Hmod.
  - simpl. by rewrite Z.div_1_r.
  - rewrite Nat2Z.inj_succ, Z.pow_succ_r in * by lia.
    assert (0 < 2 ^ Z.of_nat n) by (apply Z.pow_pos_nonneg; lia).
    apply Z.mod_divide in Hmod as [k Hk]; [|lia].
    assert (m / 2 = k * 2 ^ Z.of_nat n) as Hhalf by lia.
    rewrite Nat.iter_succ_r, shr_1_exact, IH.
    + by rewrite Z.div_div by lia.
    + lia.
    + rewrite Hhalf. apply Z.mod_mul. lia.
    + done.
    + lia.
Qed.

Lemma shr_record_of_loc_m (m : Z) (l : location) :
  shr_m (shr_record_of_loc m l) = m.
Proof. by destruct l as [|[]]. Qed.

Lemma shr_spec (mrs : shr_record) (e n : Z) :
  0 ≤ shr_m mrs →
  ∃ mrs' k,
    shr mrs e n = (mrs', e + k) ∧ k = Z.max n 0 ∧
    shr_m mrs' = shr_m mrs / 2 ^ k ∧
    (shr_r mrs = false → shr_s mrs = false → shr_m mrs mod 2 ^ k = 0 →
     shr_r mrs' = false ∧ shr_s mrs' = false).
Proof.
  intros Hm. destruct n as [|p|p]; simpl.
  - exists mrs, 0. rewrite Z.add_0_r, Z.div_1_r. done.
  - exists (iter_pos shr_1 p mrs), (Z.pos p).
    rewrite iter_pos_nat, <-(positive_nat_Z p). split; [done|]. split; [lia|].
    split; [by apply iter_shr_1_m|].
    destruct mrs as [m r s]; simpl in *. intros -> -> Hmod.
    by rewrite iter_shr_1_exact.
  - exists mrs, 0. rewrite Z.add_0_r, Z.div_1_r. done.
Qed.

Lemma digits2_pos_size (p : positive) : digits2_pos p = Pos.size p.
Proof. induction p; simpl; congruence. Qed.

Lemma digits2_pos_gt (p : positive) : Z.pos p < 2 ^ Z.pos (digits2_pos p).
Proof.
  rewrite digits2_pos_size. pose proof (Pos.size_gt p) as H.
  apply Pos2Z.pos_lt_pos in H. by rewrite Pos2Z.inj_pow in H.
Qed.

Lemma digits2_pos_le (p : positive) : 2 ^ Z.pos (digits2_pos p) ≤ 2 * Z.pos p.
Proof.
  rewrite digits2_pos_size. pose proof (Pos.size_le p) as H.
  apply Pos2Z.pos_le_pos in H. by rewrite Pos2Z.inj_pow in H.
Qed.

Lemma Zdigits2_bound (q k : Z) : 0 ≤ k → 0 ≤ q < 2 ^ k → Zdigits2 q ≤ k.
Proof.
  intros Hk [Hq0 Hq]. destruct q as [|p|p]; simpl; [lia| |lia].
  pose proof (digits2_pos_le p).
  apply Z.lt_succ_r, (Z.pow_lt_mono_r_iff 2); [lia..|].
  rewrite Z.pow_succ_r by lia. lia.
Qed.

Lemma new_location_exact (D : Z) : new_location D 0 = loc_Exact.
Proof. unfold new_location. by destruct (Z.even D). Qed.

Lemma round_nearest_even_bounds (mrs : shr_record) :
  let m' := round_nearest_even (shr_m mrs) (loc_of_shr_record mrs) in
  shr_m mrs ≤ m' ≤ shr_m mrs + 1 ∧
  (shr_r mrs = false → shr_s mrs = false → m' = shr_m mrs).
Proof.
  destruct mrs as [m [|] [|]]; simpl; repeat split; try done; try lia;
    destruct (Z.even m); lia.
Qed.

Lemma binary_round_aux_small (sx : bool) (V D e' : Z) :
  0 ≤ V → 0 < D → e' ≤ -53 →
  V * 2 ^ 53 ≤ (2 ^ 53 - 1) * D * 2 ^ (- e') →
  small (binary_round_aux prec emax sx (V / D) e' (new_location D (V mod D))).
Proof.
  intros HV HD He' Hbound.
  assert (0 < 2 ^ (- e')) as Hpow by (apply Z.pow_pos_nonneg; lia).
  assert (0 ≤ V / D < 2 ^ (- e')) as Hq.
  { split; [apply Z.div_pos; lia|]. apply Z.div_lt_upper_bound; [done|].
    pose proof (Z.mul_pos_pos _ _ HD Hpow).
    rewrite <-Z.mul_assoc in Hbound. lia. }
  pose proof (Zdigits2_bound (V / D) (- e') ltac:(lia) Hq) as Hdig.
  unfold binary_round_aux, shr_fexp.
  destruct (shr_spec (shr_record_of_loc (V / D) (new_location D (V mod D))) e'
              (fexp prec emax (Zdigits2 (V / D) + e') - e'))
    as (mrs1 & k1 & -> & Hk1 & Hm1 & Hex1);
    [rewrite shr_record_of_loc_m; lia|].
  rewrite shr_record_of_loc_m in Hm1, Hex1.
  assert (0 ≤ k1 ∧ e' + k1 ≤ -53) as [Hk1_0 He1].
  { unfold fexp, emin, prec, emax in Hk1. lia. }
  destruct (round_nearest_even_bounds mrs1) as [Hround Hround_exact].
  set (m2 := round_nearest_even (shr_m mrs1) (loc_of_shr_record mrs1)) in *.
  set (e1 := e' + k1) in *.
  assert (0 ≤ m2 < 2 ^ (- e1)) as Hm2.
  { assert (0 < 2 ^ k1) as Hpow1 by (apply Z.pow_pos_nonneg; lia).
    assert (0 ≤ shr_m mrs1) by (rewrite Hm1; apply Z.div_pos; lia).
    split; [lia|].
    assert (0 < 2 ^ (- e1 - 53)) as HK by (apply Z.pow_pos_nonneg; lia).
    assert (2 ^ (- e1) = 2 ^ 53 * 2 ^ (- e1 - 53)) as HT.
    { rewrite <-Z.pow_add_r by lia. f_equal. lia. }
    assert (2 ^ (- e') = 2 ^ k1 * 2 ^ (- e1)) as HP.
    { rewrite <-Z.pow_add_r by lia. f_equal. lia. }
    rewrite Z.div_div in Hm1 by lia.
    rewrite HT. rewrite HP, HT in Hbound.
    set (K := 2 ^ (- e1 - 53)) in *. set (W := D * 2 ^ k1) in *.
    assert (0 < W) as HW by (apply Z.mul_pos_pos; lia).
    assert (0 < W * K) as HWK by (apply Z.mul_pos_pos; lia).
    assert (V ≤ W * ((2 ^ 53 - 1) * K)) as HVW.
    { apply (Z.mul_le_mono_pos_r _ _ (2 ^ 53)); [lia|].
      etrans; [exact Hbound|]. apply Z.eq_le_incl. unfold W. ring. }
    assert (V / W ≤ (2 ^ 53 - 1) * K) as Hm1_le
      by (apply Z.div_le_upper_bound; lia).
    destruct (decide (shr_m mrs1 + 1 < 2 ^ 53 * K)) as [|Hedge]; [lia|].
    assert (K = 1 ∧ V / W = 2 ^ 53 - 1) as [HK1 HVW1] by lia.
    rewrite HK1 in *.
    assert (V = D * ((2 ^ 53 - 1) * 2 ^ k1)) as HVeq.
    { pose proof (Z.mul_div_le V W HW). unfold W in *. lia. }
    rewrite Hround_exact; [lia|apply Hex1..].
    - rewrite HVeq, Z.mul_comm, Z.mod_mul, new_location_exact by lia. done.
    - rewrite HVeq, Z.mul_comm, Z.mod_mul, new_location_exact by lia. done.
    - rewrite HVeq, Z.mul_comm, Z.div_mul, Z.mod_mul by lia. done.
    - rewrite HVeq, Z.mul_comm, Z.mod_mul, new_location_exact by lia. done.
    - rewrite HVeq, Z.mul_comm, Z.mod_mul, new_location_exact by lia. done.
    - rewrite HVeq, Z.mul_comm, Z.div_mul, Z.mod_mul by lia. done. }
  destruct (shr_spec (shr_record_of_loc m2 loc_Exact) e1
              (fexp prec emax (Zdigits2 m2 + e1) - e1))
    as (mrs2 & k2 & -> & Hk2 & Hm3 & _);
    [rewrite shr_record_of_loc_m; lia|].
  rewrite shr_record_of_loc_m in Hm3. rewrite Hm3.
  assert (0 ≤ k2) as Hk2_0 by lia.
  assert (0 < 2 ^ k2) as Hpow2 by (apply Z.pow_pos_nonneg; lia).
  assert (0 ≤ m2 / 2 ^ k2) as Hm3_0 by (apply Z.div_pos; lia).
  destruct (m2 / 2 ^ k2) as [|m3|m3] eqn:Hm3'; simpl; [done| |lia].
  assert (k2 < - e1) as Hlt.
  { apply (Z.pow_lt_mono_r_iff 2); [lia..|]. 
    assert (2 ^ k2 ≤ m2); [|lia]. 
    destruct (decide (2 ^ k2 ≤ m2)); [done|]. rewrite Z.div_small in Hm3' by lia. done. }
  rewrite (proj2 (Z.leb_le _ _)) by (unfold prec, emax; lia).
  simpl. split; [lia|]. rewrite <-Hm3'.
  apply Z.div_lt_upper_bound; [done|].
  rewrite <-Z.pow_add_r by lia. replace (k2 + - (e1 + k2)) with (- e1) by lia. lia.
Qed.

Lemma bounded_digits (m : positive) (e : Z) :
  bounded prec emax m e = true →
  -1074 ≤ e ∧ Z.pos (digits2_pos m) ≤ 53 ∧ (-1074 < e → Z.pos (digits2_pos m) = 53).
Proof.
  unfold bounded, canonical_mantissa, fexp, emin, prec, emax.
  intros [Hc%Z.eqb_eq _]%andb_prop. lia.
Qed.

Lemma SFdiv_small (sx sy : bool) (mx my : positive) (ex ey : Z) :
  bounded prec emax mx ex = true → bounded prec emax my ey = true →
  ex < ey ∨ (ex = ey ∧ Z.pos mx < Z.pos my) →
  small (SFdiv prec emax (S754_finite sx mx ex) (S754_finite sy my ey)).
Proof.
  intros (Hex & Hdx & Hnx)%bounded_digits (Hey & Hdy & Hny)%bounded_digits Hlt.
  pose proof (digits2_pos_gt mx) as Hmx_gt. pose proof (digits2_pos_le mx) as Hmx_le.
  pose proof (digits2_pos_gt my) as Hmy_gt. pose proof (digits2_pos_le my) as Hmy_le.
  set (d1 := Z.pos (digits2_pos mx)) in *. set (d2 := Z.pos (digits2_pos my)) in *.
  assert (2 ^ d1 ≤ 2 ^ 53 ∧ 2 ^ d2 ≤ 2 ^ 53) as [Hpx Hpy]
    by (split; apply Z.pow_le_mono_r; lia).
  assert (d1 + ex ≤ d2 + ey) as Hmag.
  { destruct Hlt as [?|[-> Hm]]; [lia|].
    assert (d1 < Z.succ d2); [|lia].
    apply (Z.pow_lt_mono_r_iff 2); [lia..|]. rewrite Z.pow_succ_r by lia. lia. }
  unfold SFdiv, SFdiv_core_binary. cbn [Zdigits2]. fold d1 d2.
  set (e' := Z.min (fexp prec emax (d1 + ex - (d2 + ey))) (ex - ey)).
  assert (e' ≤ -53 ∧ e' ≤ ex - ey) as [He' Hs].
  { unfold e', fexp, emin, prec, emax. lia. }
  set (s := ex - ey - e') in *.
  assert (0 < 2 ^ s) as Hpow_s by (apply Z.pow_pos_nonneg; lia).
  assert (match s with
          | Z.pos _ => Z.shiftl (Z.pos mx) s
          | 0 => Z.pos mx
          | Z.neg _ => 0
          end = Z.pos mx * 2 ^ s) as ->.
  { destruct s eqn:Hs'; [lia| |lia]. rewrite Z.shiftl_mul_pow2; lia. }
  pose proof (binary_round_aux_small (xorb sx sy) (Z.pos mx * 2 ^ s) (Z.pos my) e')
    as Hsmall.
  unfold Z.div, Z.modulo in Hsmall.
  destruct (Z.div_eucl (Z.pos mx * 2 ^ s) (Z.pos my)) as [q r].
  apply Hsmall; [lia|lia|done|].
  destruct Hlt as [Hlt|[-> Hm]].
  - assert (2 ^ (- e') = 2 ^ s * 2 ^ (ey - ex)) as ->.
    { rewrite <-Z.pow_add_r by lia. f_equal. lia. }
    assert (2 ^ 1 ≤ 2 ^ (ey - ex)) as Hpow_t by (apply Z.pow_le_mono_r; lia).
    assert (d2 = 53) as Hd2 by lia. rewrite Hd2 in *.
    assert (2 ^ 52 * 2 ≤ Z.pos my * 2 ^ (ey - ex)) as Hbig
      by (apply Z.mul_le_mono_nonneg; lia).
    replace (Z.pos mx * 2 ^ s * 2 ^ 53) with (Z.pos mx * 2 ^ 53 * 2 ^ s) by ring.
    replace ((2 ^ 53 - 1) * Z.pos my * (2 ^ s * 2 ^ (ey - ex)))
      with ((2 ^ 53 - 1) * (Z.pos my * 2 ^ (ey - ex)) * 2 ^ s) by ring.
    apply Z.mul_le_mono_nonneg_r; lia.
  - replace (- e') with s by lia.
    replace (Z.pos mx * 2 ^ s * 2 ^ 53) with (Z.pos mx * 2 ^ 53 * 2 ^ s) by ring.
    apply Z.mul_le_mono_nonneg_r; lia.
Qed.


Lemma div_small (x g : float) :
  (- g <? x)%float = true → (x <? g)%float = true → small (Prim2SF (x / g)).
Proof.
  rewrite !ltb_spec, opp_spec, div_spec.
  pose proof (Prim2SF_valid x) as Hvx. pose proof (Prim2SF_valid g) as Hvg.
  unfold SF64div, SFltb.
  destruct (Prim2SF x) as [sx|sx| |sx mx ex], (Prim2SF g) as [sg|sg| |sg mg eg];
    simpl; try done;
    try (by destruct sx); try (by destruct sg); try (by destruct sx, sg).
  intros Hlo Hhi. apply SFdiv_small; [done..|].
  change (Pos.compare_cont Eq) with Pos.compare in *.
  destruct sx, sg; simpl in *; try done.
  - destruct (Z.compare_spec eg ex); try done; [right|left; lia].
    split; [done|]. destruct (Pos.compare_spec mg mx); try done; lia.
  - destruct (Z.compare_spec ex eg); try done; [right|left; lia].
    split; [done|]. destruct (Pos.compare_spec mx mg); try done; lia.
Qed.











(** *** Division by twice the divisor *)













End float_division.

Section square_grid_scenarios.
Local Open Scope Z_scope.
Local Set Warnings "-inexact-float".

(** The centre used by the neighbour benchmark. *)
Example seoul_index :
  square_grid_index 37.5665 126.9780 8 = Some "325063_96170_8"%string.
Proof. vm_compute. reflexivity. Qed.

Example seoul_neighbors :
  square_grid_neighbors 325063 96170 1
  = ["325062_96170"; "325063_96169"; "325063_96170"; "325063_96171";
     "325064_96170"]%string.
Proof. vm_compute. reflexivity. Qed.

Example negative_index :
  square_grid_index (-0.05) (-0.05) 0 = Some "0_0_0"%string
  ∧ grid_size_of 0 = Some 0.1%float
  ∧ floor (-0.05 / 0.1) = Some (-1)
  ∧ int (-0.05 / 0.1) = Some 0.
Proof. vm_compute. auto. Qed.

Example positive_index :
  square_grid_index 0.05 0.05 0 = Some "0_0_0"%string
  ∧ floor (0.05 / 0.1) = Some 0.
Proof. vm_compute. auto. Qed.

(** C4, as stated, fails below zero: at resolution 0 the points
    (-0.05, -0.05) and (0.05, 0.05) get the same index, and their floors are
    (-1, -1) and (0, 0). *)
Lemma index_is_not_the_floor_pair : ¬ ∃ encode, encodes_floor_pair encode.
Proof.
  intros (encode & Hinj & Hfloor).
  destruct negative_index as (Hneg & Hsize & Hfneg & _).
  destruct positive_index as (Hpos & Hfpos).
  pose proof (Hfloor (-0.05)%float (-0.05)%float 0 _ _ _ Hsize Hfneg Hfneg) as H1.
  pose proof (Hfloor 0.05%float 0.05%float 0 _ _ _ Hsize Hfpos Hfpos) as H2.
  rewrite Hneg in H1. rewrite Hpos in H2.
  destruct (Hinj 0 (-1) (-1) 0 0); [congruence|lia].
Qed.

(** The amended C4 at a point with a negative latitude. *)
Lemma square_grid_index_rounds_towards_zero_below_zero :
  grid_size_of 0 = Some 0.1%float ∧
  floor (0.05 / 0.1) = Some 0 ∧
  floor (-0.05 / 0.1) = Some (-1) ∧
  ∃ grid_x grid_y,
    square_grid_index (-0.05) 0.05 0
    = Some (str grid_x +:+ "_" +:+ str grid_y +:+ "_" +:+ str 0) ∧
    (0 ≤ 0 → grid_x = 0) ∧ (0 < 0 → ceil (0.05 / 0.1) = Some grid_x) ∧
    (0 ≤ -1 → grid_y = -1) ∧ (-1 < 0 → ceil (-0.05 / 0.1) = Some grid_y).
Proof.
  destruct negative_index as (_ & Hsize & Hfneg & _).
  destruct positive_index as (_ & Hfpos).
  split; [exact Hsize|]. split; [exact Hfpos|]. split; [exact Hfneg|].
  exact (square_grid_index_rounds_towards_zero (-0.05) 0.05 0 0.1 0 (-1)
           Hsize Hfpos Hfneg).
Defined.

(** C5, as stated, fails at the centre of the neighbour benchmark: its index
    is not among the neighbours of its grid coordinates. *)
Lemma seoul_index_not_among_neighbors :
  ¬ (∀ index grid_x grid_y,
       square_grid_index 37.5665 126.9780 8 = Some index →
       grid_coordinates 37.5665 126.9780 8 = Some (grid_x, grid_y) →
       index ∈ square_grid_neighbors grid_x grid_y 1).
Proof.
  intros Hclaim.
  specialize (Hclaim _ 325063 96170 seoul_index ltac:(vm_compute; reflexivity)).
  rewrite seoul_neighbors in Hclaim.
  rewrite !elem_of_cons, elem_of_nil in Hclaim. destruct_or!; done.
Qed.

(** The amended C5 at the centre of the neighbour benchmark. *)
Lemma index_is_neighbor_name_with_resolution_seoul :
  square_grid_index 37.5665 126.9780 8 = Some "325063_96170_8"%string ∧
  0 ≤ 1 ∧
  ∃ grid_x grid_y,
    grid_coordinates 37.5665 126.9780 8 = Some (grid_x, grid_y) ∧
    "325063_96170_8"%string = cell_name grid_x grid_y +:+ "_" +:+ str 8 ∧
    cell_name grid_x grid_y ∈ square_grid_neighbors grid_x grid_y 1 ∧
    ("325063_96170_8"%string ∉ square_grid_neighbors grid_x grid_y 1).
Proof.
  split; [exact seoul_index|]. split; [lia|].
  exact (index_is_neighbor_name_with_resolution 37.5665 126.9780 8 1 _
           seoul_index ltac:(lia)).
Defined.

(** Points in the cells at 0, 1 and -1 at resolution 8, whose grid size is
    [0.1 / 256]; twice that is [0.1 / 128], the grid size at resolution 7. *)
Example cells_around_zero_at_8 :
  square_grid_index 0.0003 (-0.0002) 8 = Some "0_0_8"%string ∧
  square_grid_index (-0.0001) 0.00035 8 = Some "0_0_8"%string ∧
  square_grid_index 0.0005 (-0.0004) 8 = Some "-1_1_8"%string ∧
  square_grid_index 0.0008 (-0.0008) 8 = Some "-2_2_8"%string ∧
  Prim2SF (0.1 / 256) = S754_finite false 7205759403792794 (-64) ∧
  Prim2SF (0.1 / 128) = S754_finite false 7205759403792794 (-63) ∧
  Prim2SF (2 * (0.1 / 256)) = Prim2SF (0.1 / 128) ∧
  grid_size_of 7 = Some (0.1 / 128)%float.
Proof. vm_compute. repeat split. Qed.

(** Beyond the cells at 1 and -1 a cell starts and ends where the rounded
    quotient passes a whole number, which need not be a whole multiple of
    the grid size: [0.1] as a float is above a tenth, so that [1.0] is below
    ten times the grid size at resolution 0, and yet in the cell at 10. *)
Example cell_bounds_follow_the_rounded_quotient :
  grid_size_of 0 = Some 0.1%float ∧
  Prim2SF 0.1 = S754_finite false 7205759403792794 (-56) ∧
  Prim2SF 1 = S754_finite false (2 ^ 52) (-52) ∧
  2 ^ 52 * 2 ^ 4 < 10 * 7205759403792794 ∧
  square_grid_index 1 1 0 = Some "10_10_0"%string.
Proof. vm_compute. repeat split. Qed.


End square_grid_scenarios.

(** ** More about the Manhattan neighbourhood *)

Section more_neighbors.
Local Open Scope Z_scope.

(** One pass of the inner loop [for dy in range(-k, k+1)]. *)
Lemma neighbors_row (grid_x grid_y k dx : Z) :
  (dy ← range (- k) (k + 1);
   if decide (Z.abs dx + Z.abs dy ≤ k)
   then [cell_name (grid_x + dx) (grid_y + dy)] else [])
  = (λ dy, cell_name (grid_x + dx) (grid_y + dy))
      <$> filter (λ dy, Z.abs dx + Z.abs dy ≤ k) (range (- k) (k + 1)).
Proof.
  induction (range (- k) (k + 1)) as [|dy l IH]; [done|].
  rewrite bind_cons, filter_cons, IH. by case_decide.
Qed.

Lemma cell_name_inj_y (x y y' : Z) : cell_name x y = cell_name x y' → y = y'.
Proof. by intros [_ ?]%cell_name_inj. Qed.

Lemma NoDup_range (start stop : Z) : NoDup (range start stop).
Proof. apply NoDup_seqZ. Qed.

(** X1. No cell is listed twice. *)
Theorem square_grid_neighbors_NoDup (grid_x grid_y k : Z) :
  NoDup (square_grid_neighbors grid_x grid_y k).
Proof.
  unfold square_grid_neighbors. apply NoDup_bind; [| |apply NoDup_range].
  - intros dx dx' name _ _. rewrite !neighbors_row, !list_elem_of_fmap.
    intros (dy & -> & _) (dy' & [? _]%cell_name_inj & _). lia.
  - intros dx _. rewrite neighbors_row. apply NoDup_fmap_2_strong.
    + intros dy dy' _ _ ?%cell_name_inj_y. lia.
    + apply NoDup_filter, NoDup_range.
Qed.

Lemma length_bind {A B} (f : A → list B) (l : list A) :
  length (l ≫= f) = sum_list_with (λ x, length (f x)) l.
Proof.
  induction l as [|x l IH]; [done|].
  rewrite bind_cons, length_app, IH. done.
Qed.

Lemma filter_all {A} (P : A → Prop) `{∀ x, Decision (P x)} (l : list A) :
  (∀ x, x ∈ l → P x) → filter P l = l.
Proof.
  induction l as [|x l IH]; intros HP; [done|].
  rewrite filter_cons_True, IH; [done| |apply HP; left].
  intros y ?. apply HP. by right.
Qed.

Lemma filter_none {A} (P : A → Prop) `{∀ x, Decision (P x)} (l : list A) :
  (∀ x, x ∈ l → ¬ P x) → filter P l = [].
Proof.
  intros HP. apply elem_of_nil_inv. intros x [? ?]%list_elem_of_filter.
  by apply (HP x).
Qed.

(** The cells of a range that lie in an interval inside it. *)
Lemma length_filter_range (start stop a b : Z) :
  start ≤ a → a ≤ b + 1 → b < stop →
  length (filter (λ i, a ≤ i ≤ b) (range start stop)) = Z.to_nat (b + 1 - a).
Proof.
  intros Ha Hab Hb. unfold range.
  replace (stop - start) with ((a - start) + ((b + 1 - a) + (stop - (b + 1)))) by lia.
  rewrite !seqZ_app, !filter_app, !length_app by lia.
  replace (start + (a - start)) with a by lia.
  replace (a + (b + 1 - a)) with (b + 1) by lia.
  rewrite (filter_none _ (seqZ start _)), (filter_all _ (seqZ a _)),
    (filter_none _ (seqZ (b + 1) _)), length_seqZ; [simpl; lia|..];
    intros i Hi%elem_of_seqZ; lia.
Qed.

(** The sum of [2 * (k - i) + 1] for [i] from [1] to [n]. *)
Lemma sum_row_lengths (k : Z) (n : nat) :
  sum_list_with (λ i, Z.to_nat (2 * (k - i) + 1)) (seqZ 1 (Z.of_nat n))
  = Z.to_nat (Z.of_nat n * (2 * k - Z.of_nat n)) ∨ k < Z.of_nat n.
Proof.
  induction n as [|n IH]; [by left|].
  destruct (decide (k < Z.of_nat (S n))) as [|Hk]; [by right|]. left.
  destruct IH as [IH|]; [|lia].
  rewrite seqZ_S, sum_list_with_app, IH. simpl. nia.
Qed.

(** The sum of [2 * (k + i) + 1] for [i] from [-k] on. *)
Lemma sum_row_lengths_below (k : Z) (n : nat) :
  sum_list_with (λ i, Z.to_nat (2 * (k + i) + 1)) (seqZ (- k) (Z.of_nat n))
  = (n * n)%nat.
Proof.
  induction n as [|n IH]; [done|].
  rewrite seqZ_S, sum_list_with_app, IH. simpl. lia.
Qed.

Lemma sum_list_with_ext {A} (f g : A → nat) (l : list A) :
  (∀ x, x ∈ l → f x = g x) → sum_list_with f l = sum_list_with g l.
Proof.
  induction l as [|x l IH]; intros Hfg; [done|]. simpl.
  rewrite (Hfg x), IH; [done| |left]. intros y ?. apply Hfg. by right.
Qed.

Lemma length_neighbors_row (grid_x grid_y k dx : Z) :
  - k ≤ dx ≤ k →
  length (dy ← range (- k) (k + 1);
          if decide (Z.abs dx + Z.abs dy ≤ k)
          then [cell_name (grid_x + dx) (grid_y + dy)] else [])
  = Z.to_nat (2 * (k - Z.abs dx) + 1).
Proof.
  intros Hdx. rewrite neighbors_row, length_fmap.
  rewrite (list_filter_iff _ (λ dy, - (k - Z.abs dx) ≤ dy ≤ k - Z.abs dx))
    by (intros dy; lia).
  rewrite length_filter_range by lia. f_equal. lia.
Qed.

(** X2. The neighbourhood has [2 k^2 + 2 k + 1] cells, and none for a negative
    [k]. *)
Theorem square_grid_neighbors_length (grid_x grid_y k : Z) :
  Z.of_nat (length (square_grid_neighbors grid_x grid_y k))
  = if decide (0 ≤ k) then 2 * k * k + 2 * k + 1 else 0.
Proof.
  unfold square_grid_neighbors. rewrite length_bind.
  case_decide as Hk.
  - rewrite (sum_list_with_ext _ (λ dx, Z.to_nat (2 * (k - Z.abs dx) + 1)))
      by (intros dx ?%elem_of_range; apply length_neighbors_row; lia).
    unfold range. replace (k + 1 - - k) with (k + (1 + k)) by lia.
    rewrite !seqZ_app, !sum_list_with_app by lia.
    replace (- k + k) with 0 by lia. replace (0 + 1) with 1 by lia.
    rewrite (sum_list_with_ext _ (λ i, Z.to_nat (2 * (k + i) + 1)) (seqZ (- k) k))
      by (intros i ?%elem_of_seqZ; f_equal; lia).
    rewrite (sum_list_with_ext _ (λ i, Z.to_nat (2 * (k - i) + 1)) (seqZ 1 k))
      by (intros i ?%elem_of_seqZ; f_equal; lia).
    replace (seqZ (- k) k) with (seqZ (- k) (Z.of_nat (Z.to_nat k)))
      by (by rewrite Z2Nat.id).
    replace (seqZ 1 k) with (seqZ 1 (Z.of_nat (Z.to_nat k)))
      by (by rewrite Z2Nat.id).
    rewrite sum_row_lengths_below.
    destruct (sum_row_lengths k (Z.to_nat k)) as [->|]; [|lia].
    simpl. nia.
  - unfold range. rewrite seqZ_nil by lia. done.
Qed.

(** X3. The neighbourhood relation is symmetric. *)
Theorem square_grid_neighbors_symmetric (x y x' y' k : Z) :
  cell_name x' y' ∈ square_grid_neighbors x y k ↔
  cell_name x y ∈ square_grid_neighbors x' y' k.
Proof.
  rewrite !elem_of_square_grid_neighbors.
  split; intros (dx & dy & Hd & [-> ->]%cell_name_inj);
    exists (- dx), (- dy); (split; [lia|f_equal; lia]).
Qed.

End more_neighbors.

(** ** More about the index *)

Section more_index.
Local Open Scope Z_scope.

(** X4. An index names its cell and its resolution: two points, at two
    resolutions, have the same index exactly when the resolutions and the
    grid coordinates are the same. *)
Theorem square_grid_index_inj
    (lat lng lat' lng' : float) (resolution resolution' : Z) (index : string) :
  square_grid_index lat lng resolution = Some index →
  (square_grid_index lat' lng' resolution' = Some index ↔
   resolution' = resolution ∧
   grid_coordinates lat' lng' resolution' = grid_coordinates lat lng resolution).
Proof.
  rewrite !square_grid_index_name.
  destruct (grid_coordinates lat lng resolution) as [[x y]|]; [|done].
  simpl. intros [= <-]. split.
  - destruct (grid_coordinates lat' lng' resolution') as [[x' y']|]; [|done].
    simpl. unfold cell_name. rewrite !append_assoc. intros [= Heq].
    apply split_at_underscore in Heq as [->%str_inj Heq];
      [|apply count_underscore_str..].
    apply split_at_underscore in Heq as [->%str_inj ->%str_inj];
      [|apply count_underscore_str..].
    done.
  - intros [-> ->]. done.
Qed.

Lemma binary_round_aux_opp (s : bool) (m e : Z) (l : location) :
  binary_round_aux prec emax (negb s) m e l
  = SFopp (binary_round_aux prec emax s m e l).
Proof.
  unfold binary_round_aux.
  destruct (shr_fexp prec emax m e l) as [mrs' e'].
  destruct (shr_fexp prec emax _ e' loc_Exact) as [mrs'' e''].
  destruct (shr_m mrs''); [done| |done]. by case_match.
Qed.

Lemma SFdiv_opp_l (x y : spec_float) :
  SFdiv prec emax (SFopp x) y = SFopp (SFdiv prec emax x y).
Proof.
  destruct x as [sx|sx| |sx mx ex], y as [sy|sy| |sy my ey]; simpl;
    try done; try (by destruct sx, sy).
  destruct (SFdiv_core_binary prec emax (Z.pos mx) ex (Z.pos my) ey)
    as [[mz ez] lz].
  replace (xorb (negb sx) sy) with (negb (xorb sx sy)) by (by destruct sx, sy).
  apply binary_round_aux_opp.
Qed.

Lemma int_opp (x : float) : int (- x) = Z.opp <$> int x.
Proof.
  unfold int. rewrite opp_spec.
  destruct (Prim2SF x) as [s|s| |s m e]; simpl; try done.
  f_equal. assert (0 < 2 ^ (- e) ∨ 0 ≤ e) as Hpow.
  { destruct (decide (0 ≤ e)); [by right|left]. apply Z.pow_pos_nonneg; lia. }
  case_decide; destruct s; simpl; try lia;
    change (Z.neg m) with (- Z.pos m); rewrite ?Z.quot_opp_l by lia; lia.
Qed.

Lemma int_div_opp (x g : float) : int (- x / g) = Z.opp <$> int (x / g).
Proof.
  rewrite <-int_opp. unfold int.
  by rewrite opp_spec, !div_spec, opp_spec, <-SFdiv_opp_l.
Qed.

(** X5. The grid is its own mirror image about zero: the point opposite to a
    point has the opposite grid coordinates. *)
Theorem grid_coordinates_opp (lat lng : float) (resolution : Z) :
  grid_coordinates (- lat) (- lng) resolution
  = (λ c, (- c.1, - c.2)) <$> grid_coordinates lat lng resolution.
Proof.
  unfold grid_coordinates.
  destruct (grid_size_of resolution) as [grid_size|]; simpl; [|done].
  rewrite !int_div_opp.
  destruct (int (lng / grid_size)) as [x|]; simpl; [|done].
  by destruct (int (lat / grid_size)) as [y|].
Qed.

End more_index.

(** ** Where the index is defined *)

Import Records.

Section index_defined.
Local Open Scope Z_scope.
Local Set Warnings "-inexact-float".

Local Ltac Zify.zify_post_hook ::= Z.to_euclidean_division_equations.

Definition finite_or_zero (x : spec_float) : Prop :=
  match x with
  | S754_zero _ | S754_finite _ _ _ => True
  | S754_infinity _ | S754_nan => False
  end.

Lemma binary_round_aux_finite (sx : bool) (q e' K : Z) (l : location) :
  0 ≤ K ≤ 1000 → e' ≤ K → e' ≤ 971 → 0 ≤ q < 2 ^ (K - e') →
  finite_or_zero (binary_round_aux prec emax sx q e' l).
Proof.
  intros HK He'K He' Hq.
  pose proof (Zdigits2_bound q (K - e') ltac:(lia) Hq) as Hdig.
  unfold binary_round_aux, shr_fexp.
  destruct (shr_spec (shr_record_of_loc q l) e'
              (fexp prec emax (Zdigits2 q + e') - e'))
    as (mrs1 & k1 & -> & Hk1 & Hm1 & _);
    [rewrite shr_record_of_loc_m; lia|].
  rewrite shr_record_of_loc_m in Hm1.
  assert (0 ≤ k1 ∧ e' + k1 ≤ K ∧ e' + k1 ≤ 971) as (Hk1_0 & He1K & He1).
  { unfold fexp, emin, prec, emax in Hk1. lia. }
  destruct (round_nearest_even_bounds mrs1) as [Hround _].
  set (m2 := round_nearest_even (shr_m mrs1) (loc_of_shr_record mrs1)) in *.
  set (e1 := e' + k1) in *.
  assert (0 < 2 ^ k1) as Hpow1 by (apply Z.pow_pos_nonneg; lia).
  assert (0 ≤ shr_m mrs1 < 2 ^ (K - e1)) as Hm1_lt.
  { rewrite Hm1. split; [apply Z.div_pos; lia|].
    apply Z.div_lt_upper_bound; [done|].
    rewrite <-Z.pow_add_r by lia. replace (k1 + (K - e1)) with (K - e') by lia. lia. }
  assert (0 ≤ m2 < 2 ^ (K - e1 + 1)) as Hm2.
  { rewrite Z.pow_add_r by lia. lia. }
  pose proof (Zdigits2_bound m2 (K - e1 + 1) ltac:(lia) Hm2) as Hdig2.
  destruct (shr_spec (shr_record_of_loc m2 loc_Exact) e1
              (fexp prec emax (Zdigits2 m2 + e1) - e1))
    as (mrs2 & k2 & -> & Hk2 & Hm3 & _);
    [rewrite shr_record_of_loc_m; lia|].
  rewrite shr_record_of_loc_m in Hm3. rewrite Hm3.
  assert (0 ≤ k2 ∧ e1 + k2 ≤ 971) as [Hk2_0 He2].
  { unfold fexp, emin, prec, emax in Hk2. lia. }
  assert (0 < 2 ^ k2) as Hpow2 by (apply Z.pow_pos_nonneg; lia).
  assert (0 ≤ m2 / 2 ^ k2) as Hm3_0 by (apply Z.div_pos; lia).
  destruct (m2 / 2 ^ k2) as [|m3|m3]; simpl; [done| |lia].
  by rewrite (proj2 (Z.leb_le _ _)) by (unfold prec, emax; lia).
Qed.

Lemma SFdiv_finite (sx sy : bool) (mx my : positive) (ex ey : Z) :
  bounded prec emax mx ex = true → bounded prec emax my ey = true →
  Z.pos (digits2_pos mx) + ex - (Z.pos (digits2_pos my) + ey) ≤ 999 →
  finite_or_zero (SFdiv prec emax (S754_finite sx mx ex) (S754_finite sy my ey)).
Proof.
  intros (Hex & Hdx & Hnx)%bounded_digits (Hey & Hdy & Hny)%bounded_digits Hmag.
  pose proof (digits2_pos_gt mx) as Hmx_gt.
  pose proof (digits2_pos_le my) as Hmy_le.
  set (d1 := Z.pos (digits2_pos mx)) in *. set (d2 := Z.pos (digits2_pos my)) in *.
  assert (0 < d1 ∧ 0 < d2) as [Hd1 Hd2] by (unfold d1, d2; lia).
  unfold SFdiv, SFdiv_core_binary. cbn [Zdigits2]. fold d1 d2.
  set (e' := Z.min (fexp prec emax (d1 + ex - (d2 + ey))) (ex - ey)).
  assert (e' ≤ Z.max (d1 + ex - (d2 + ey) - 53) (-1074) ∧ e' ≤ ex - ey) as [He' Hs].
  { unfold e', fexp, emin, prec, emax. lia. }
  set (s := ex - ey - e') in *.
  assert (match s with
          | Z.pos _ => Z.shiftl (Z.pos mx) s
          | 0 => Z.pos mx
          | Z.neg _ => 0
          end = Z.pos mx * 2 ^ s) as ->.
  { destruct s eqn:Hs'; [lia| |lia]. rewrite Z.shiftl_mul_pow2; lia. }
  set (K := Z.max (d1 + ex - (d2 + ey) + 1) 0).
  pose proof (binary_round_aux_finite (xorb sx sy) (Z.pos mx * 2 ^ s / Z.pos my) e' K
                (new_location (Z.pos my) (Z.pos mx * 2 ^ s mod Z.pos my))) as Hfin.
  unfold Z.div, Z.modulo in Hfin.
  destruct (Z.div_eucl (Z.pos mx * 2 ^ s) (Z.pos my)) as [q r] eqn:Hqr.
  apply Hfin; [lia..|].
  assert (q = Z.pos mx * 2 ^ s / Z.pos my) as -> by (unfold Z.div; by rewrite Hqr).
  assert (0 < 2 ^ s) as Hpow_s by (apply Z.pow_pos_nonneg; lia).
  split; [apply Z.div_pos; lia|]. apply Z.div_lt_upper_bound; [lia|].
  assert (2 ^ (d1 + s) ≤ 2 ^ (d2 - 1 + (K - e'))) as Hle
    by (apply Z.pow_le_mono_r; lia).
  rewrite !Z.pow_add_r in Hle by lia.
  assert (2 * 2 ^ (d2 - 1) = 2 ^ d2) as Hd2'.
  { rewrite <-Z.pow_succ_r by lia. f_equal. lia. }
  assert (0 < 2 ^ (K - e')) by (apply Z.pow_pos_nonneg; lia).
  nia.
Qed.

Lemma int_finite (x : float) : finite_or_zero (Prim2SF x) → is_Some (int x).
Proof. unfold int. by destruct (Prim2SF x). Qed.

(** A float between two opposite finite bounds is zero or finite, with an
    exponent that is at most the exponent of the bounds. *)
Lemma between_bounds (lo hi x : float) (mb : positive) (eb : Z) :
  Prim2SF lo = S754_finite true mb eb → Prim2SF hi = S754_finite false mb eb →
  (lo <=? x)%float = true → (x <=? hi)%float = true →
  match Prim2SF x with
  | S754_zero _ => True
  | S754_finite _ _ ex => ex ≤ eb
  | S754_infinity _ | S754_nan => False
  end.
Proof.
  rewrite !leb_spec. intros -> ->. unfold SFleb.
  destruct (Prim2SF x) as [s|[|]| |[|] mx ex]; simpl; try done.
  - destruct (Z.compare_spec eb ex); try done; lia.
  - intros _. destruct (Z.compare_spec ex eb); try done; lia.
Qed.

(** Dividing a float of bounded exponent by a finite float that is not too
    small gives a float that [int] converts. *)
Lemma int_div_finite (x g : float) (sg : bool) (mg : positive) (eg eb : Z) :
  Prim2SF g = S754_finite sg mg eg →
  53 + eb - (Z.pos (digits2_pos mg) + eg) ≤ 999 →
  match Prim2SF x with
  | S754_zero _ => True
  | S754_finite _ _ ex => ex ≤ eb
  | S754_infinity _ | S754_nan => False
  end →
  is_Some (int (x / g)).
Proof.
  intros Hg Hmag Hx. apply int_finite. rewrite div_spec, Hg.
  pose proof (Prim2SF_valid x) as Hvx. pose proof (Prim2SF_valid g) as Hvg.
  rewrite Hg in Hvg.
  destruct (Prim2SF x) as [s|s| |s mx ex]; try done.
  apply SFdiv_finite; [done..|].
  apply bounded_digits in Hvx as (_ & ? & _). lia.
Qed.

(** The grid sizes at the resolutions of H3. *)
Lemma grid_size_of_h3 (resolution : Z) :
  0 ≤ resolution ≤ 15 →
  ∃ grid_size, grid_size_of resolution = Some grid_size ∧
    Prim2SF grid_size = S754_finite false 7205759403792794 (-56 - resolution).
Proof.
  intros Hr.
  assert (∀ n, (n < 16)%nat →
            ∃ grid_size, grid_size_of (Z.of_nat n) = Some grid_size ∧
              Prim2SF grid_size
              = S754_finite false 7205759403792794 (-56 - Z.of_nat n)) as Hn.
  { intros n Hn.
    do 16 (destruct n as [|n]; [eexists; split; vm_compute; reflexivity|]).
    lia. }
  rewrite <-(Z2Nat.id resolution) by lia. apply Hn. lia.
Qed.

(** X6. The index is defined at every geographic position and every resolution
    of H3. *)
Theorem square_grid_index_defined (lat lng : float) (resolution : Z) :
  0 ≤ resolution ≤ 15 →
  (-90 <=? lat)%float = true → (lat <=? 90)%float = true →
  (-180 <=? lng)%float = true → (lng <=? 180)%float = true →
  ∃ grid_x grid_y,
    grid_coordinates lat lng resolution = Some (grid_x, grid_y) ∧
    square_grid_index lat lng resolution
    = Some (cell_name grid_x grid_y +:+ "_" +:+ str resolution).
Proof.
  intros Hr Hlat1 Hlat2 Hlng1 Hlng2.
  destruct (grid_size_of_h3 resolution Hr) as (grid_size & Hsize & Hg).
  pose proof (between_bounds (-90) 90 lat 6333186975989760 (-46)
                eq_refl eq_refl Hlat1 Hlat2) as Hlat.
  pose proof (between_bounds (-180) 180 lng 6333186975989760 (-45)
                eq_refl eq_refl Hlng1 Hlng2) as Hlng.
  assert (∀ x, match Prim2SF x with
               | S754_zero _ => True
               | S754_finite _ _ ex => ex ≤ -45
               | S754_infinity _ | S754_nan => False
               end → is_Some (int (x / grid_size))) as Hint.
  { intros x. apply (int_div_finite _ _ _ _ _ _ Hg). simpl. lia. }
  rewrite square_grid_index_name. unfold grid_coordinates. rewrite Hsize. simpl.
  destruct (Hint lng) as [grid_x ->]; [done|].
  destruct (Hint lat) as [grid_y ->].
  { destruct (Prim2SF lat); try done. lia. }
  simpl. eauto.
Qed.

(** X7. The grid coordinates of a generated database record are defined at
    every geographic position, so generating a record never fails there. *)
Theorem record_grid_defined (lat lng : float) :
  (-90 <=? lat)%float = true → (lat <=? 90)%float = true →
  (-180 <=? lng)%float = true → (lng <=? 180)%float = true →
  is_Some (record_grid lat lng).
Proof.
  intros Hlat1 Hlat2 Hlng1 Hlng2.
  pose proof (between_bounds (-90) 90 lat 6333186975989760 (-46)
                eq_refl eq_refl Hlat1 Hlat2) as Hlat.
  pose proof (between_bounds (-180) 180 lng 6333186975989760 (-45)
                eq_refl eq_refl Hlng1 Hlng2) as Hlng.
  assert (∀ x, match Prim2SF x with
               | S754_zero _ => True
               | S754_finite _ _ ex => ex ≤ -45
               | S754_infinity _ | S754_nan => False
               end → is_Some (int (x / 0.001))) as Hint.
  { intros x. eapply int_div_finite; [vm_compute; reflexivity|vm_compute; done]. }
  unfold record_grid.
  destruct (Hint lng) as [grid_x ->]; [done|].
  destruct (Hint lat) as [grid_y ->].
  { destruct (Prim2SF lat); try done. lia. }
  simpl. eauto.
Qed.

End index_defined.

Import SquareBuckets.

(** ** Facts about the dictionaries of square cells *)

Section square_buckets.
Local Open Scope Z_scope.
Context {V : Type}.
Implicit Types (d : gmap string (list V)) (key : string).

Lemma lookup_append_at key key' (v : V) d :
  append_at key v d !! key'
  = if decide (key = key') then Some (default [] (d !! key) ++ [v]) else d !! key'.
Proof. unfold append_at. by rewrite lookup_insert. Qed.

Lemma bucket_append_at key key' (v : V) d :
  default [] (append_at key v d !! key')
  = default [] (d !! key') ++ (if decide (key = key') then [v] else []).
Proof.
  rewrite lookup_append_at. case_decide as Hk; [by subst|].
  by rewrite (right_id_L [] (++)).
Qed.

Lemma total_count_insert_fresh key (vs : list V) d :
  d !! key = None → total_count (<[key := vs]> d) = (length vs + total_count d)%nat.
Proof.
  intros Hk. unfold total_count. by rewrite map_to_list_insert.
Qed.

Lemma total_count_append_at key (v : V) d :
  total_count (append_at key v d) = S (total_count d).
Proof.
  unfold append_at. destruct (d !! key) as [vs|] eqn:Hk; simpl.
  - rewrite <-(insert_delete_id d key vs) at 2 by done.
    rewrite <-insert_delete_eq.
    rewrite !total_count_insert_fresh by apply lookup_delete_eq.
    rewrite length_app. simpl. lia.
  - by rewrite total_count_insert_fresh.
Qed.

Lemma nonempty_append_at key (v : V) d :
  map_Forall (λ _ vs, vs ≠ []) d → map_Forall (λ _ vs, vs ≠ []) (append_at key v d).
Proof.
  intros Hd key' vs. rewrite lookup_append_at. case_decide.
  - intros [= <-]. by destruct (default [] (d !! key)).
  - apply Hd.
Qed.

End square_buckets.

Section aggregation.
Local Open Scope Z_scope.

Lemma total_count_empty {V} : total_count (∅ : gmap string (list V)) = 0%nat.
Proof. unfold total_count. by rewrite map_to_list_empty. Qed.

Lemma values_at_cons (grid_size : float) (key : string) (lat lng value : float)
    (rows : list (float * float * float)) :
  values_at grid_size key ((lat, lng, value) :: rows)
  = (if decide (square_cell grid_size lat lng = Some key) then [value] else [])
    ++ values_at grid_size key rows.
Proof. unfold values_at. simpl. by case_decide. Qed.

Lemma square_data_loop_spec (grid_size : float)
    (rows : list (float * float * float)) (d0 d : gmap string (list float)) :
  square_data_loop grid_size rows d0 = Some d →
  (∀ key, default [] (d !! key)
          = default [] (d0 !! key) ++ values_at grid_size key rows) ∧
  total_count d = (total_count d0 + length rows)%nat ∧
  (map_Forall (λ _ vs, vs ≠ []) d0 → map_Forall (λ _ vs, vs ≠ []) d).
Proof.
  revert d0. induction rows as [|[[lat lng] value] rows IH]; intros d0;
    cbn [square_data_loop].
  - intros [= <-]. split_and!; [|simpl; lia|done].
    intros key. change (values_at grid_size key []) with (@nil float).
    by rewrite (right_id_L [] (++)).
  - destruct (square_cell grid_size lat lng) as [square_index|] eqn:Hcell;
      [|done].
    change (Some square_index ≫= ?f) with (f square_index). cbv beta.
    intros (Hbucket & Htotal & Hne)%IH. split_and!.
    + intros key. rewrite Hbucket, bucket_append_at, <-(assoc_L (++)).
      f_equal. rewrite values_at_cons, Hcell. f_equal.
      case_decide as Hk; [subst|].
      * by rewrite decide_True.
      * rewrite decide_False by congruence. done.
    + rewrite Htotal, total_count_append_at. simpl. lia.
    + intros Hd0. by apply Hne, nonempty_append_at.
Qed.

(** X8. The aggregation groups every value under the cell of its point: a cell
    is a key exactly when some row falls into it, its values are those rows'
    values in input order, and the counts of all cells add up to the number
    of rows. No cell has an empty list, so the average [sum / len] of a cell
    never divides by zero. *)
Theorem square_data_groups_rows (grid_size : float)
    (rows : list (float * float * float)) (d : gmap string (list float)) :
  square_data grid_size rows = Some d →
  (∀ key, d !! key = match values_at grid_size key rows with
                     | [] => None
                     | values_list => Some values_list
                     end) ∧
  total_count d = length rows.
Proof.
  intros (Hbucket & Htotal & Hne)%square_data_loop_spec.
  split; [|by rewrite Htotal, total_count_empty].
  intros key. specialize (Hbucket key). rewrite lookup_empty in Hbucket.
  simpl in Hbucket. rewrite <-Hbucket.
  destruct (d !! key) as [vs|] eqn:Hk; simpl; [|done].
  destruct vs; [|done]. by destruct (Hne (map_Forall_empty _) key [] Hk).
Qed.

End aggregation.

Section range_query.
Local Open Scope Z_scope.

Lemma elem_of_numbered (i j : nat) (lat lng : float) (points : list (float * float)) :
  (lat, lng, j) ∈ numbered i points ↔
  (i ≤ j)%nat ∧ points !! (j - i)%nat = Some (lat, lng).
Proof.
  revert i. induction points as [|[lat' lng'] points IH]; intros i; simpl.
  - rewrite elem_of_nil, lookup_nil. split; [done|by intros [_ ?]].
  - rewrite elem_of_cons, IH. split.
    + intros [[= -> -> ->]|[Hij Hp]].
      * rewrite Nat.sub_diag. done.
      * split; [lia|]. by replace (j - i)%nat with (S (j - S i)) by lia.
    + intros [Hij Hp]. destruct (decide (j = i)) as [->|].
      * rewrite Nat.sub_diag in Hp. left. by simplify_eq/=.
      * right. split; [lia|].
        by replace (j - i)%nat with (S (j - S i)) in Hp by lia.
Qed.

Lemma numbered_ids (i : nat) (points : list (float * float)) :
  snd <$> numbered i points = seq i (length points).
Proof.
  revert i. induction points as [|[lat lng] points IH]; intros i; [done|].
  simpl. by rewrite IH.
Qed.

Lemma square_points_loop_spec (grid_size : float) (i : nat)
    (points : list (float * float)) (d0 d : gmap string (list (float * float * nat))) :
  square_points_loop grid_size i points d0 = Some d →
  ∀ key, default [] (d !! key)
         = default [] (d0 !! key) ++ points_at grid_size key i points.
Proof.
  revert i d0. induction points as [|[lat lng] points IH]; intros i d0;
    cbn [square_points_loop].
  - intros [= <-] key.
    change (points_at grid_size key i []) with (@nil (float * float * nat)).
    by rewrite (right_id_L [] (++)).
  - destruct (square_cell grid_size lat lng) as [square_index|] eqn:Hcell;
      [|done].
    change (Some square_index ≫= ?f) with (f square_index). cbv beta.
    intros Hloop key. rewrite (IH _ _ Hloop), bucket_append_at, <-(assoc_L (++)).
    f_equal. unfold points_at. cbn [numbered]. rewrite filter_cons. simpl.
    rewrite Hcell. case_decide as Hk; [subst|].
    + by rewrite decide_True.
    + by rewrite decide_False by congruence.
Qed.

(** The identifiers that one bucket contributes to a query. *)
Lemma elem_of_bucket_result (a : area) (bucket : list (float * float * nat)) (id : nat) :
  id ∈ ('(lat, lng, point_id) ← bucket;
        if in_area a lat lng then [point_id] else []) ↔
  ∃ lat lng, (lat, lng, id) ∈ bucket ∧ in_area a lat lng = true.
Proof.
  rewrite list_elem_of_bind. split.
  - intros ([[lat lng] point_id] & Hid & Hin).
    destruct (in_area a lat lng) eqn:Ha; [|by apply elem_of_nil in Hid].
    apply list_elem_of_singleton in Hid as ->. eauto.
  - intros (lat & lng & Hin & Ha). exists (lat, lng, id).
    rewrite Ha. split; [left|done].
Qed.

Lemma NoDup_bucket_result (a : area) (bucket : list (float * float * nat)) :
  NoDup (snd <$> bucket) →
  NoDup ('(lat, lng, point_id) ← bucket;
         if in_area a lat lng then [point_id] else []).
Proof.
  induction bucket as [|[[lat lng] point_id] bucket IH]; [constructor|].
  rewrite fmap_cons, NoDup_cons, bind_cons. intros [Hid Hnd].
  destruct (in_area a lat lng); simpl; [|by apply IH].
  apply NoDup_cons. split; [|by apply IH].
  intros (lat' & lng' & Hin & _)%elem_of_bucket_result.
  apply Hid, list_elem_of_fmap. by exists (lat', lng', point_id).
Qed.

Lemma NoDup_fmap_filter {A B} (f : A → B) (P : A → Prop) `{∀ x, Decision (P x)}
    (l : list A) :
  NoDup (f <$> l) → NoDup (f <$> filter P l).
Proof.
  induction l as [|x l IH]; [done|].
  rewrite fmap_cons, NoDup_cons, filter_cons. intros [Hx Hl].
  case_decide; [|by apply IH].
  rewrite fmap_cons, NoDup_cons. split; [|by apply IH].
  intros (y & Hy & [_ ?]%list_elem_of_filter)%list_elem_of_fmap.
  apply Hx, list_elem_of_fmap. eauto.
Qed.

Lemma square_cell_Some (grid_size lat lng : float) (x y : Z) :
  square_cell grid_size lat lng = Some (cell_name x y) ↔
  int (lng / grid_size) = Some x ∧ int (lat / grid_size) = Some y.
Proof.
  unfold square_cell.
  destruct (int (lng / grid_size)) as [x'|]; simpl; [|by split; [|intros []]].
  destruct (int (lat / grid_size)) as [y'|]; simpl; [|by split; [|intros []]].
  split.
  - by intros [= [-> ->]%cell_name_inj].
  - by intros [[= ->] [= ->]].
Qed.

(** What one cell contributes to a query, in terms of the points. *)
Lemma elem_of_cell_result (grid_size : float) (points : list (float * float))
    (d : gmap string (list (float * float * nat))) (a : area) (x y : Z) (id : nat) :
  square_points grid_size points = Some d →
  id ∈ match d !! cell_name x y with
       | Some bucket =>
           '(lat, lng, point_id) ← bucket;
           if in_area a lat lng then [point_id] else []
       | None => []
       end ↔
  ∃ lat lng, points !! id = Some (lat, lng) ∧
    int (lng / grid_size) = Some x ∧ int (lat / grid_size) = Some y ∧
    in_area a lat lng = true.
Proof.
  intros Hd. pose proof (square_points_loop_spec _ _ _ _ _ Hd (cell_name x y)) as Hb.
  rewrite lookup_empty in Hb. simpl in Hb.
  assert (∀ lat lng, (lat, lng, id) ∈ default [] (d !! cell_name x y) ↔
            points !! id = Some (lat, lng) ∧
            int (lng / grid_size) = Some x ∧ int (lat / grid_size) = Some y) as Hin.
  { intros lat lng. rewrite Hb. unfold points_at.
    rewrite list_elem_of_filter, elem_of_numbered, Nat.sub_0_r. simpl.
    rewrite square_cell_Some. intuition lia. }
  destruct (d !! cell_name x y) as [bucket|]; simpl in Hin.
  - rewrite elem_of_bucket_result. split.
    + intros (lat & lng & (? & ? & ?)%Hin & ?). eauto 10.
    + intros (lat & lng & ? & ? & ? & ?). exists lat, lng. split; [|done].
      by apply Hin.
  - rewrite elem_of_nil. split; [done|].
    intros (lat & lng & ? & ? & ? & _). by eapply elem_of_nil, Hin.
Qed.

Lemma NoDup_cell_result (grid_size : float) (points : list (float * float))
    (d : gmap string (list (float * float * nat))) (a : area) (x y : Z) :
  square_points grid_size points = Some d →
  NoDup match d !! cell_name x y with
        | Some bucket =>
            '(lat, lng, point_id) ← bucket;
            if in_area a lat lng then [point_id] else []
        | None => []
        end.
Proof.
  intros Hd. pose proof (square_points_loop_spec _ _ _ _ _ Hd (cell_name x y)) as Hb.
  rewrite lookup_empty in Hb. simpl in Hb.
  destruct (d !! cell_name x y) as [bucket|]; [|constructor].
  simpl in Hb. subst bucket. apply NoDup_bucket_result, NoDup_fmap_filter.
  rewrite numbered_ids. apply NoDup_seq.
Qed.

(** X9. A range query over the cells returns, once each, the points that lie in
    the area and whose cell lies in the block of cells between the cells of
    the area's corners. *)
Theorem square_range_query_result (grid_size : float) (points : list (float * float))
    (d : gmap string (list (float * float * nat))) (a : area) (result : list nat) :
  square_points grid_size points = Some d →
  square_range_query grid_size d a = Some result →
  ∃ x_min x_max y_min y_max,
    int (lng_min a / grid_size) = Some x_min ∧
    int (lng_max a / grid_size) = Some x_max ∧
    int (lat_min a / grid_size) = Some y_min ∧
    int (lat_max a / grid_size) = Some y_max ∧
    (∀ id, id ∈ result ↔
       ∃ lat lng x y,
         points !! id = Some (lat, lng) ∧
         int (lng / grid_size) = Some x ∧ int (lat / grid_size) = Some y ∧
         x_min ≤ x ≤ x_max ∧ y_min ≤ y ≤ y_max ∧
         in_area a lat lng = true) ∧
    NoDup result.
Proof.
  intros Hd. unfold square_range_query.
  destruct (int (lng_min a / grid_size)) as [x_min|]; simpl; [|done].
  destruct (int (lng_max a / grid_size)) as [x_max|]; simpl; [|done].
  destruct (int (lat_min a / grid_size)) as [y_min|]; simpl; [|done].
  destruct (int (lat_max a / grid_size)) as [y_max|]; simpl; [|done].
  intros [= <-]. exists x_min, x_max, y_min, y_max. split_and!; try done.
  - intros id. rewrite list_elem_of_bind. split.
    + intros (x & (y & Hid & Hy%elem_of_range)%list_elem_of_bind & Hx%elem_of_range).
      apply (elem_of_cell_result _ _ _ _ _ _ _ Hd) in Hid
        as (lat & lng & ? & ? & ? & ?).
      exists lat, lng, x, y. split_and!; try done; lia.
    + intros (lat & lng & x & y & ? & ? & ? & ? & ? & ?).
      exists x. split; [|apply elem_of_range; lia].
      apply list_elem_of_bind. exists y. split; [|apply elem_of_range; lia].
      apply (elem_of_cell_result _ _ _ _ _ _ _ Hd). eauto 10.
  - apply NoDup_bind; [| |apply NoDup_seqZ].
    + intros x x' id _ _ (y & Hid & _)%list_elem_of_bind
        (y' & Hid' & _)%list_elem_of_bind.
      apply (elem_of_cell_result _ _ _ _ _ _ _ Hd) in Hid
        as (lat & lng & ? & ? & _).
      apply (elem_of_cell_result _ _ _ _ _ _ _ Hd) in Hid'
        as (lat' & lng' & ? & ? & _).
      congruence.
    + intros x _. apply NoDup_bind; [| |apply NoDup_seqZ].
      * intros y y' id _ _ Hid Hid'.
        apply (elem_of_cell_result _ _ _ _ _ _ _ Hd) in Hid
          as (lat & lng & ? & ? & ? & _).
        apply (elem_of_cell_result _ _ _ _ _ _ _ Hd) in Hid'
          as (lat' & lng' & ? & ? & ? & _).
        congruence.
      * intros y _. by eapply NoDup_cell_result.
Qed.

End range_query.

(** ** The square grid on the points of the benchmarks *)

Section square_bucket_scenarios.
Local Open Scope Z_scope.
Local Set Warnings "-inexact-float".

(** Two points of one cell at resolution 8. *)
Lemma square_grid_index_inj_seoul :
  square_grid_index 37.5665 126.9780 8 = Some "325063_96170_8"%string ∧
  (square_grid_index 37.5666 126.9781 8 = Some "325063_96170_8"%string ↔
   8 = 8 ∧
   grid_coordinates 37.5666 126.9781 8 = grid_coordinates 37.5665 126.9780 8).
Proof.
  split; [vm_compute; reflexivity|].
  exact (square_grid_index_inj 37.5665 126.9780 37.5666 126.9781 8 8 _
           ltac:(vm_compute; reflexivity)).
Defined.

(** The centre of the neighbour benchmark is a geographic position. *)
Lemma square_grid_index_defined_seoul :
  0 ≤ 8 ≤ 15 ∧
  (-90 <=? 37.5665)%float = true ∧ (37.5665 <=? 90)%float = true ∧
  (-180 <=? 126.9780)%float = true ∧ (126.9780 <=? 180)%float = true ∧
  ∃ grid_x grid_y,
    grid_coordinates 37.5665 126.9780 8 = Some (grid_x, grid_y) ∧
    square_grid_index 37.5665 126.9780 8
    = Some (cell_name grid_x grid_y +:+ "_" +:+ str 8).
Proof.
  split; [lia|].
  do 4 (split; [vm_compute; reflexivity|]).
  exact (square_grid_index_defined 37.5665 126.9780 8 ltac:(lia)
           ltac:(vm_compute; reflexivity) ltac:(vm_compute; reflexivity)
           ltac:(vm_compute; reflexivity) ltac:(vm_compute; reflexivity)).
Defined.

Lemma record_grid_defined_seoul :
  (-90 <=? 37.5665)%float = true ∧ (37.5665 <=? 90)%float = true ∧
  (-180 <=? 126.9780)%float = true ∧ (126.9780 <=? 180)%float = true ∧
  is_Some (record_grid 37.5665 126.9780).
Proof.
  do 4 (split; [vm_compute; reflexivity|]).
  exact (record_grid_defined 37.5665 126.9780
           ltac:(vm_compute; reflexivity) ltac:(vm_compute; reflexivity)
           ltac:(vm_compute; reflexivity) ltac:(vm_compute; reflexivity)).
Defined.

(** The quotient [126.978 / 0.001] is just below [126978]. *)
Example record_grid_seoul : record_grid 37.5665 126.9780 = Some (126977, 37566).
Proof. vm_compute. reflexivity. Qed.

(** Three rows, two of them in one cell. *)
Definition sample_rows : list (float * float * float) :=
  [(37.5665, 126.9780, 1); (35.1, 129.0, 2); (37.5666, 126.9781, 3)]%float.

Lemma square_data_groups_rows_sample :
  ∃ d,
    square_data (0.1 / 256) sample_rows = Some d ∧
    (∀ key, d !! key = match values_at (0.1 / 256) key sample_rows with
                       | [] => None
                       | values_list => Some values_list
                       end) ∧
    total_count d = length sample_rows.
Proof.
  eexists. split; [vm_compute; reflexivity|].
  exact (square_data_groups_rows (0.1 / 256) sample_rows _
           ltac:(vm_compute; reflexivity)).
Defined.

(** Three points and an area around the first and the third. *)
Definition sample_points : list (float * float) :=
  [(37.5665, 126.9780); (35.1, 129.0); (37.5666, 126.9781)]%float.

Definition sample_area : area := Area 37.56 37.57 126.97 126.98.

Lemma square_range_query_result_sample :
  ∃ d result,
    square_points (0.1 / 256) sample_points = Some d ∧
    square_range_query (0.1 / 256) d sample_area = Some result ∧
    ∃ x_min x_max y_min y_max,
      int (lng_min sample_area / (0.1 / 256)) = Some x_min ∧
      int (lng_max sample_area / (0.1 / 256)) = Some x_max ∧
      int (lat_min sample_area / (0.1 / 256)) = Some y_min ∧
      int (lat_max sample_area / (0.1 / 256)) = Some y_max ∧
      (∀ id, id ∈ result ↔
         ∃ lat lng x y,
           sample_points !! id = Some (lat, lng) ∧
           int (lng / (0.1 / 256)) = Some x ∧ int (lat / (0.1 / 256)) = Some y ∧
           x_min ≤ x ≤ x_max ∧ y_min ≤ y ≤ y_max ∧
           in_area sample_area lat lng = true) ∧
      NoDup result.
Proof.
  eexists _, _. split; [vm_compute; reflexivity|].
  split; [vm_compute; reflexivity|].
  exact (square_range_query_result (0.1 / 256) sample_points _ sample_area _
           ltac:(vm_compute; reflexivity) ltac:(vm_compute; reflexivity)).
Defined.

(** What the sample query returns: the first and the third point. *)
Example square_range_query_sample :
  (square_points (0.1 / 256) sample_points
     ≫= λ d, square_range_query (0.1 / 256) d sample_area)
  = Some [0; 2]%nat.
Proof. vm_compute. reflexivity. Qed.

End square_bucket_scenarios.

Import Nearest.

Section nearest_facts.
Local Open Scope Z_scope.
Context {Cell : Type}.
Variable h3_distance : Cell → Cell → Z.

Section search.
Context {A B : Type}.
Variables (h3_of : A → Cell) (pick : A → B) (here : Cell).

Local Abbreviation dist c := (h3_distance here (h3_of c)).

(** The candidate at position [i] is the first of the nearest ones. *)
Definition first_nearest (candidates : list A) (i : nat) (c : A) : Prop :=
  candidates !! i = Some c ∧
  (∀ c', c' ∈ candidates → dist c ≤ dist c') ∧
  (∀ j c', (j < i)%nat → candidates !! j = Some c' → dist c < dist c').

Lemma nearest_loop_spec (candidates : list A) (best : option B) (m : distance) :
  (nearest_loop h3_distance h3_of pick here candidates best m = (best, m) ∧
   ∀ c, c ∈ candidates → closer (dist c) m = false) ∨
  (∃ i c, first_nearest candidates i c ∧ closer (dist c) m = true ∧
     nearest_loop h3_distance h3_of pick here candidates best m
     = (Some (pick c), Steps (dist c))).
Proof.
  revert best m. induction candidates as [|c0 cs IH]; intros best m.
  - left. split; [done|]. by intros c ?%elem_of_nil.
  - cbn [nearest_loop]. destruct (closer (dist c0) m) eqn:Hc0.
    + right. destruct (IH (Some (pick c0)) (Steps (dist c0)))
        as [[-> Hnone]|(i & c & (Hi & Hmin & Hfirst) & Hc & ->)].
      * exists 0%nat, c0. unfold first_nearest. split_and!; try done.
        -- intros c' [->|Hc']%elem_of_cons; [lia|].
           specialize (Hnone c' Hc'). simpl in Hnone.
           apply bool_decide_eq_false in Hnone. lia.
        -- intros j c' Hj. lia.
      * simpl in Hc. apply bool_decide_eq_true in Hc.
        exists (S i), c. unfold first_nearest. split_and!; try done.
        -- intros c' [->|Hc']%elem_of_cons; [lia|]. by apply Hmin.
        -- intros [|j] c' Hj; simpl; [intros [= <-]; lia|].
           apply Hfirst. lia.
        -- destruct m as [|m]; [done|]. simpl in *.
           apply bool_decide_eq_true in Hc0. apply bool_decide_eq_true. lia.
    + destruct (IH best m) as [[-> Hnone]|(i & c & (Hi & Hmin & Hfirst) & Hc & ->)].
      * left. split; [done|]. by intros c' [->|Hc']%elem_of_cons; auto.
      * right. exists (S i), c. unfold first_nearest. split_and!; try done.
        -- intros c' [->|Hc']%elem_of_cons; [|by apply Hmin].
           destruct m as [|m]; [done|]. simpl in *.
           apply bool_decide_eq_false in Hc0. apply bool_decide_eq_true in Hc. lia.
        -- intros [|j] c' Hj; simpl; [|apply Hfirst; lia].
           intros [= <-]. destruct m as [|m]; [done|]. simpl in *.
           apply bool_decide_eq_false in Hc0. apply bool_decide_eq_true in Hc. lia.
Qed.

(** The search over no candidate finds nothing and keeps the infinite
    distance; over any candidates it finds the first of those at the least
    distance, and that distance. *)
Lemma nearest_spec (candidates : list A) :
  match candidates with
  | [] => nearest h3_distance h3_of pick here candidates = (None, Infinity)
  | _ :: _ =>
      ∃ i c, first_nearest candidates i c ∧
        nearest h3_distance h3_of pick here candidates
        = (Some (pick c), Steps (dist c))
  end.
Proof.
  destruct candidates as [|c0 cs]; [done|]. unfold nearest.
  destruct (nearest_loop_spec (c0 :: cs) None Infinity)
    as [[_ Hnone]|(i & c & ? & _ & ?)]; [|by eauto].
  by specialize (Hnone c0 (list_elem_of_here _ _)).
Qed.

End search.
(** X10. Every order is matched when some driver is available, and none is
    otherwise. An order's match is the first of the available drivers at the
    least grid distance from the order, with that distance. *)
Theorem match_orders_nearest (drivers : list (driver (Cell:=Cell)))
    (orders : list (order (Cell:=Cell))) :
  (available_drivers drivers = [] → match_orders h3_distance drivers orders = []) ∧
  (available_drivers drivers ≠ [] →
   Forall2 (λ o m,
      match_order_id m = order_id o ∧
      ∃ i best,
        first_nearest driver_h3 (order_h3 o) (available_drivers drivers) i best ∧
        status best = "available" ∧
        match_driver_id m = driver_id best ∧
        match_h3_distance m = Steps (h3_distance (order_h3 o) (driver_h3 best)))
     orders (match_orders h3_distance drivers orders)).
Proof.
  unfold match_orders. split.
  - intros ->. induction orders as [|o orders IH]; [done|].
    by rewrite bind_cons, IH.
  - intros Hav. induction orders as [|o orders IH]; [constructor|].
    rewrite bind_cons.
    pose proof (nearest_spec driver_h3 id (order_h3 o) (available_drivers drivers))
      as Hnearest.
    destruct (available_drivers drivers) as [|d0 ds] eqn:Hds; [done|].
    destruct Hnearest as (i & best & Hfirst & ->). simpl.
    constructor; [|exact IH]. split; [done|]. exists i, best.
    split_and!; try done.
    destruct Hfirst as [Hi _]. apply list_elem_of_lookup_2 in Hi.
    rewrite <-Hds in Hi. unfold available_drivers in Hi.
    by apply list_elem_of_filter in Hi as [? _].
Qed.

(** X11. The accessibility row of a sample: each search gives the first of the
    nearest candidates and its distance, or nothing and the infinite
    distance when there is no candidate; the score is [10] less the sum of
    the two distances, and [0] from a sum of [10] on or with an infinite
    distance. With distances that are not negative it lies between [0] and
    [10]. *)
Theorem accessibility_of_spec (stations : list (station (Cell:=Cell)))
    (bus_stops : list (bus_stop (Cell:=Cell))) (here : Cell) :
  (∀ c, 0 ≤ h3_distance here c) →
  let row := accessibility_of h3_distance stations bus_stops here in
  0 ≤ accessibility_score row ≤ 10 ∧
  match stations with
  | [] => subway_distance row = Infinity ∧ nearest_station row = None ∧
          accessibility_score row = 0
  | _ :: _ =>
      ∃ i s, first_nearest station_h3 here stations i s ∧
        nearest_station row = Some (station_name s) ∧
        subway_distance row = Steps (h3_distance here (station_h3 s))
  end ∧
  match bus_stops with
  | [] => bus_distance row = Infinity ∧ nearest_bus_stop row = None ∧
          accessibility_score row = 0
  | _ :: _ =>
      ∃ j b, first_nearest stop_h3 here bus_stops j b ∧
        nearest_bus_stop row = Some (stop_name b) ∧
        bus_distance row = Steps (h3_distance here (stop_h3 b))
  end ∧
  accessibility_score row
  = match subway_distance row, bus_distance row with
    | Steps s, Steps b => if decide (s + b < 10) then 10 - (s + b) else 0
    | _, _ => 0
    end.
Proof.
  intros Hpos. unfold accessibility_of.
  pose proof (nearest_spec station_h3 station_name here stations) as Hs.
  pose proof (nearest_spec stop_h3 stop_name here bus_stops) as Hb.
  destruct (nearest h3_distance station_h3 station_name here stations)
    as [ns ds] eqn:Hns.
  destruct (nearest h3_distance stop_h3 stop_name here bus_stops)
    as [nb db] eqn:Hnb.
  simpl. split_and!.
  - unfold score. destruct ds, db; lia.
  - unfold score. destruct stations, ds, db; simplify_eq/=; try lia.
    + destruct Hs as (? & s0 & _ & [= _ ->]).
      pose proof (Hpos (station_h3 s0)).
      destruct bus_stops; simplify_eq/=. destruct Hb as (? & b0 & _ & [= _ ->]).
      pose proof (Hpos (stop_h3 b0)). lia.
  - destruct stations; simplify_eq/=; [by destruct db|].
    destruct Hs as (i & s0 & ? & [= -> ->]). eauto.
  - destruct bus_stops; simplify_eq/=; [by destruct ds|].
    destruct Hb as (j & b0 & ? & [= -> ->]). eauto.
  - unfold score. destruct ds, db; try done. case_decide; lia.
Qed.

End nearest_facts.

(** ** The searches on a line of cells *)

Section nearest_scenarios.
Local Open Scope Z_scope.

(** Cells on a line, with the number of steps between two of them. *)
Definition line_distance (a b : Z) : Z := Z.abs (a - b).

Definition line_stations : list (station (Cell:=Z)) :=
  [Station "Gangnam" 7; Station "Yeoksam" 1; Station "Seolleung" 7].

Definition line_bus_stops : list (bus_stop (Cell:=Z)) :=
  [BusStop "stop 1" 9; BusStop "stop 2" 2].

Lemma accessibility_of_spec_on_line :
  (∀ c, 0 ≤ line_distance 4 c) ∧
  let row := accessibility_of line_distance line_stations line_bus_stops 4 in
  0 ≤ accessibility_score row ≤ 10 ∧
  (∃ i s, first_nearest line_distance station_h3 4 line_stations i s ∧
     nearest_station row = Some (station_name s) ∧
     subway_distance row = Steps (line_distance 4 (station_h3 s))) ∧
  (∃ j b, first_nearest line_distance stop_h3 4 line_bus_stops j b ∧
     nearest_bus_stop row = Some (stop_name b) ∧
     bus_distance row = Steps (line_distance 4 (stop_h3 b))) ∧
  accessibility_score row
  = match subway_distance row, bus_distance row with
    | Steps s, Steps b => if decide (s + b < 10) then 10 - (s + b) else 0
    | _, _ => 0
    end.
Proof.
  split; [unfold line_distance; lia|].
  exact (accessibility_of_spec line_distance line_stations line_bus_stops 4
           ltac:(unfold line_distance; lia)).
Defined.

(** Of the two stations at three steps the first is kept. *)
Example accessibility_on_line :
  accessibility_of line_distance line_stations line_bus_stops 4
  = Accessibility (Steps 3) (Some "Gangnam"%string) (Steps 2)
      (Some "stop 2"%string) 5.
Proof. vm_compute. reflexivity. Qed.

Example match_orders_on_line :
  match_orders line_distance
    [Driver "D1" 9 "available"; Driver "D2" 5 "busy"; Driver "D3" 1 "available"]
    [Order "O1" 4; Order "O2" 6]
  = [Matching "O1" "D3" (Steps 3); Matching "O2" "D1" (Steps 3)].
Proof. vm_compute. reflexivity. Qed.

End nearest_scenarios.

Import GeoCache.

Section geo_cache_facts.
Local Open Scope Z_scope.
Context {Cell : Type}.
Variable geo_to_h3 : float → float → Z → Cell.
Variable round : float → Z → float.

Lemma SFeqb_true (a b : spec_float) :
  SFeqb a b = true →
  (∃ s s', a = S754_zero s ∧ b = S754_zero s') ∨ a = b.
Proof.
  unfold SFeqb, SFcompare.
  destruct a as [s|s| |s m e], b as [s'|s'| |s' m' e']; try done; eauto;
    destruct s, s'; try done; eauto;
    change (PosDef.Pos.compare_cont Eq m m') with (Pos.compare m m');
    destruct (Z.compare_spec e e') as [->| |]; try done;
    destruct (Pos.compare_spec m m') as [->| |]; try done; eauto.
Qed.

Lemma SFeqb_trans (a b c : spec_float) :
  SFeqb a b = true → SFeqb b c = true → SFeqb a c = true.
Proof.
  intros [(s & s' & -> & ->)| ->]%SFeqb_true Hbc; [|done].
  apply SFeqb_true in Hbc as [(? & s'' & _ & ->)| <-]; done.
Qed.

Lemma key_eqb_trans (a b c : key) :
  key_eqb a b = true → key_eqb b c = true → key_eqb a c = true.
Proof.
  unfold key_eqb. rewrite !andb_true_iff, !FloatAxioms.eqb_spec, !Z.eqb_eq.
  intros [[??] ?] [[??] ?]. split_and!; [by eapply SFeqb_trans..|congruence].
Qed.

Local Abbreviation index_of x := (geo_to_h3 (lat x) (lng x) (resolution x)).

(** What the cache holds after the calls [earlier]. *)
Definition holds (earlier : list call) (c : cache (Cell:=Cell)) : Prop :=
  ∀ k, cache_get k c
       = (λ y, index_of y) <$> find (λ y, key_eqb (key_of round y) k) earlier.

Lemma cache_get_app (k : key) (c c' : cache (Cell:=Cell)) :
  cache_get k (c ++ c') = match cache_get k c with
                          | Some v => Some v
                          | None => cache_get k c'
                          end.
Proof.
  induction c as [|[k' v] c IH]; simpl; [by destruct (cache_get k c')|].
  by destruct (key_eqb k' k).
Qed.

Lemma find_snoc {A} (P : A → bool) (l : list A) (x : A) :
  find P (l ++ [x]) = match find P l with
                      | Some y => Some y
                      | None => if P x then Some x else None
                      end.
Proof.
  induction l as [|y l IH]; simpl; [done|]. by destruct (P y).
Qed.

Lemma cached_geo_to_h3_holds (earlier : list call) (x : call) (c : cache) :
  holds earlier c →
  (cached_geo_to_h3 geo_to_h3 round x c).1 = index_of (first_seen round earlier x) ∧
  holds (earlier ++ [x]) (cached_geo_to_h3 geo_to_h3 round x c).2.
Proof.
  intros Hc. unfold cached_geo_to_h3, first_seen.
  pose proof (Hc (key_of round x)) as Hx.
  destruct (find _ earlier) as [y|] eqn:Hy; simpl in Hx; rewrite Hx; simpl.
  - split; [done|]. intros k. rewrite find_snoc, Hc.
    destruct (find (λ y0, key_eqb (key_of round y0) k) earlier) as [z|] eqn:Hz;
      [done|]. simpl.
    destruct (key_eqb (key_of round x) k) eqn:Hxk; [|done].
    apply find_some in Hy as [Hin Hyx].
    eapply find_none in Hz; [|exact Hin].
    by rewrite (key_eqb_trans _ _ _ Hyx Hxk) in Hz.
  - split; [done|]. intros k. rewrite find_snoc, cache_get_app, Hc.
    destruct (find (λ y0, key_eqb (key_of round y0) k) earlier) as [z|];
      [done|]. simpl.
    by destruct (key_eqb (key_of round x) k).
Qed.

Lemma cached_calls_holds (calls earlier : list call) (c : cache) :
  holds earlier c →
  ∀ i x, calls !! i = Some x →
    (cached_calls geo_to_h3 round calls c).1 !! i
    = Some (index_of (first_seen round (earlier ++ take i calls) x)).
Proof.
  revert earlier c. induction calls as [|x0 calls IH]; intros earlier c Hc i x Hi;
    [done|].
  simpl. destruct (cached_geo_to_h3_holds earlier x0 c Hc) as [Hv Hc'].
  destruct (cached_geo_to_h3 geo_to_h3 round x0 c) as [v c'].
  specialize (IH (earlier ++ [x0]) c' Hc').
  destruct (cached_calls geo_to_h3 round calls c') as [vs c''].
  destruct i as [|i]; simpl in *.
  - simplify_eq. by rewrite app_nil_r.
  - rewrite (IH i x Hi). by rewrite <-app_assoc.
Qed.

Lemma cached_calls_length (calls : list call) (c : cache) :
  length (cached_calls geo_to_h3 round calls c).1 = length calls.
Proof.
  revert c. induction calls as [|x calls IH]; intros c; simpl; [done|].
  destruct (cached_geo_to_h3 geo_to_h3 round x c) as [v c'].
  specialize (IH c'). destruct (cached_calls geo_to_h3 round calls c').
  simpl in *. by rewrite IH.
Qed.

(** X12. Calls of the cached conversion on a cache that starts empty: each call
    returns the index of the first call so far with the same key. That is
    the index of its own coordinates only when no earlier call had the key;
    coordinates that round to the key of an earlier call get the earlier
    call's index. *)
Theorem cached_calls_first_seen (calls : list call) :
  (cached_calls geo_to_h3 round calls []).1
  = imap (λ i x, index_of (first_seen round (take i calls) x)) calls.
Proof.
  apply list_eq. intros i. rewrite list_lookup_imap.
  destruct (calls !! i) as [x|] eqn:Hi; simpl.
  - by apply (cached_calls_holds calls [] []).
  - apply lookup_ge_None. rewrite cached_calls_length. by apply lookup_ge_None.
Qed.

End geo_cache_facts.

(** ** Groups of an arbitrary oracle *)

Section forward_groups.
Context {Cell : Type} `{EqDecision Cell}.
Variable k_ring : Cell → list Cell.

(** The input cells that are in none of the first [i] groups. *)
Definition remaining (all_hexes : list Cell) (gs : list (list Cell)) (i : nat)
    : list Cell :=
  filter (λ c, c ∉ mjoin (take i gs)) all_hexes.

Lemma groups_from_forward U gs :
  NoDup U → groups_from k_ring U gs →
  ∀ i g, gs !! i = Some g →
    ∃ seed, seed ∈ g ∧
      ∀ x, x ∈ g ↔ rtc (link k_ring (remaining U gs i)) seed x.
Proof.
  intros HU Hgs. induction Hgs as [|start_hex U s' gs Hrun Hq _ IH]; [done|].
  destruct (bfs_run_split k_ring _ _ _ HU Hrun Hq) as [Hsplit Hstart].
  assert (NoDup (group s' ++ unvisited s')) as Hnd by by rewrite Hsplit.
  apply NoDup_app in Hnd as (_ & Hdisj & HU').
  assert (∀ c, c ∈ unvisited s' ↔ c ∈ start_hex :: U ∧ c ∉ group s') as Hun.
  { intros c. rewrite <-Hsplit, elem_of_app. split; [|tauto].
    intros Hc. split; [by right|]. intros Hg. by apply (Hdisj c). }
  destruct (group s') as [|c0 g0] eqn:Hgroup; [by apply elem_of_nil in Hstart|].
  rewrite <-Hgroup in *. clear Hgroup c0 g0.
  intros [|i] g Hi; simpl in Hi.
  - injection Hi as <-. exists start_hex. split; [done|]. intros x.
    rewrite (bfs_run_component k_ring (start_hex :: U) start_hex U s'); try done.
    + split; apply link_ext; intros c; unfold remaining; simpl;
        rewrite list_elem_of_filter; rewrite elem_of_nil; tauto.
    + by intros a b _ [_ ?].
  - destruct (IH HU' i g Hi) as (seed & Hseed & Hreach).
    exists seed. split; [done|]. intros x. rewrite Hreach.
    split; apply link_ext; intros c; unfold remaining; simpl;
      rewrite !list_elem_of_filter, elem_of_app, Hun; tauto.
Qed.

(** X13. For every oracle, symmetric or not, each group is what its seed reaches
    by links among the cells that the earlier groups have left: it has the
    seed, and a cell is in it exactly when a chain of links through cells of
    no earlier group leads from the seed to the cell. *)
Theorem groups_are_reached_from_seeds (all_hexes : list Cell) :
  ∃ gs,
    (∀ fuel, enough_fuel k_ring all_hexes ≤ fuel →
             connected_groups k_ring fuel all_hexes = Some gs) ∧
    ∀ i g, gs !! i = Some g →
      ∃ seed, seed ∈ g ∧
        ∀ x, x ∈ g ↔ rtc (link k_ring (remaining all_hexes gs i)) seed x.
Proof.
  destruct (connected_groups_run k_ring all_hexes) as (gs & Hrun & Hgs).
  exists gs. split; [done|]. intros i g Hi.
  destruct (groups_from_forward _ _ (NoDup_remove_dups _) Hgs i g Hi)
    as (seed & Hseed & Hreach).
  exists seed. split; [done|]. intros x. rewrite Hreach.
  split; apply link_ext; intros c; unfold remaining, set_of;
    rewrite !list_elem_of_filter, elem_of_remove_dups; tauto.
Qed.

End forward_groups.

Import Sampling.

Section sampling_facts.
Context {Cell : Type} `{EqDecision Cell}.
Variable geo_to_h3 : float → float → Z → Cell.
Variable h3_to_geo : Cell → float * float.
Variable arange : float → float → float → list float.
Variable k_ring : Cell → list Cell.

Lemma elem_of_sampled_hexes (b : box) (step : float) (resolution : Z) (c : Cell) :
  c ∈ sampled_hexes geo_to_h3 h3_to_geo arange b step resolution ↔
  center_inside h3_to_geo b c = true ∧
  ∃ lat lng, lat ∈ arange (lat_min b) (lat_max b) step ∧
             lng ∈ arange (lng_min b) (lng_max b) step ∧
             c = geo_to_h3 lat lng resolution.
Proof.
  unfold sampled_hexes. rewrite list_elem_of_bind. split.
  - intros (lat & (lng & Hc & Hlng)%list_elem_of_bind & Hlat).
    destruct (center_inside _ _ _) eqn:Hin; [|by apply elem_of_nil in Hc].
    apply list_elem_of_singleton in Hc as ->. eauto 6.
  - intros (Hin & lat & lng & Hlat & Hlng & ->). exists lat. split; [|done].
    apply list_elem_of_bind. exists lng. split; [|done].
    rewrite Hin. apply list_elem_of_here.
Qed.

(** X14. The groups of the polygon analysis hold exactly the cells of the sample
    points whose centre is inside the bounding box, each in one group: a
    cell that the neighbour oracle returns and no sample point has, or whose
    centre is outside the box, is in no group. *)
Theorem sampled_groups (b : box) (step : float) (resolution : Z) :
  ∃ gs,
    (∀ fuel,
       enough_fuel k_ring (sampled_hexes geo_to_h3 h3_to_geo arange b step resolution)
       ≤ fuel →
       connected_groups k_ring fuel
         (sampled_hexes geo_to_h3 h3_to_geo arange b step resolution) = Some gs) ∧
    NoDup (mjoin gs) ∧
    ∀ c, (∃ g, g ∈ gs ∧ c ∈ g) ↔
         center_inside h3_to_geo b c = true ∧
         ∃ lat lng, lat ∈ arange (lat_min b) (lat_max b) step ∧
                    lng ∈ arange (lng_min b) (lng_max b) step ∧
                    c = geo_to_h3 lat lng resolution.
Proof.
  set (all_hexes := sampled_hexes geo_to_h3 h3_to_geo arange b step resolution).
  destruct (connected_groups_run k_ring all_hexes) as (gs & Hrun & Hgs).
  exists gs. split; [done|].
  apply groups_from_split in Hgs as [Hperm _]; [|apply NoDup_remove_dups].
  split; [rewrite Hperm; apply NoDup_remove_dups|].
  intros c. rewrite <-elem_of_sampled_hexes. fold all_hexes.
  rewrite <-(elem_of_remove_dups all_hexes). unfold set_of in Hperm.
  rewrite <-Hperm, list_elem_of_join. split; intros (g & ? & ?); eauto.
Qed.

End sampling_facts.
